(** * Local series expansion of a radial kernel (mlpack / fastlib, local_expansion.h)

    A shallow embedding of the class [LocalExpansion<TKernel, TKernelDerivative>]
    and of the properties its specification states about it.

    Conventions of the embedding.
    - [double] is modelled by the exact reals [R]: rounding, infinities and
      NaN are outside the model, and the properties below are statements of
      exact arithmetic.
    - [int] and [index_t] are modelled by [Z]; none of the arithmetic on them
      that is modelled here can leave the range of a machine integer unless
      the tables already hold such values.
    - An operation returns [None] where the source has no defined result: an
      index outside a [Vector], [Matrix] or [ArrayList] (a bounds failure in
      checked builds of fastlib), a dereferenced null argument, a division of
      integers by zero, or exhausted fuel.  Each claim that an operation
      produces a result is proved as such.
    - Objects that the source passes by reference and mutates live in a
      [store], addressed by position, so that [TranslateToLocal] called with
      the receiver itself as argument is modelled with its aliasing. *)

From Stdlib Require Import Reals Lra Lia ZArith.
From stdpp Require Import base option list numbers.

Local Open Scope Z_scope.

(** ** fastlib containers *)

(** [ArrayList<T>::operator[]] and the other indexed reads: defined inside
    the bounds only. *)
Definition at_index {A : Type} (l : list A) (i : Z) : option A :=
  if i <? 0 then None else l !! Z.to_nat i.

(** [v[i] = x] on an indexed container. *)
Definition set_index {A : Type} (l : list A) (i : Z) (x : A) : option (list A) :=
  if i <? 0 then None
  else if (Z.to_nat i <? length l)%nat then Some (<[Z.to_nat i := x]> l)
  else None.

Module Vector.

Abbreviation t := (list R).

(** Modelled from the spec: fastlib's [Vector::Init(length)] is not among
    the sources.  Section 4.1 of the specification has the center that
    [Init] allocates "left as the zero vector of the ambient dimension", so
    a freshly allocated vector is modelled as zero-filled. *)
Definition Init (len : Z) : t := replicate (Z.to_nat len) 0%R.

Definition SetZero (v : t) : t := replicate (length v) 0%R.

Definition Copy (v : t) : t := v.

Definition get (v : t) (i : Z) : option R := at_index v i.

Definition set (v : t) (i : Z) (x : R) : option t := set_index v i x.

(** [v[i] += x] *)
Definition add_to (v : t) (i : Z) (x : R) : option t :=
  old ← get v i; set v i (old + x)%R.

End Vector.

Module Matrix.

(** A column-major matrix, held as the list of its columns: in the data
    sets each column is one point. *)
Abbreviation t := (list Vector.t).

(** [Matrix::get(r, c)] *)
Definition get (m : t) (r c : Z) : option R :=
  col ← at_index m c; Vector.get col r.

End Matrix.

(** [DRange]: one interval of a [DHrectBound]. *)
Record DRange := mkDRange { lo : R; hi : R }.

(** Modelled from the spec: fastlib's [DRange::width()] is not among the
    sources.  Section 4.4 of the specification describes the region as one
    interval for each dimension and speaks of the width of an interval, so
    the width is the upper end minus the lower end. *)
Definition width (range : DRange) : R := (hi range - lo range)%R.

(** [DHrectBound<2>]: one interval for each dimension. *)
Abbreviation DHrectBound := (list DRange).

(** [DHrectBound::dim()] *)
Definition bound_dim (b : DHrectBound) : Z := Z.of_nat (length b).

(** ** The collaborators of the expansion *)

(** The kernel, template parameter [TKernel]. *)
Class Kernel (K : Type) := {
  Kernel_Init : R → K;
  Kernel_bandwidth_sq : K → R
}.

(** The derivative generator, template parameter [TKernelDerivative].  The
    source hands it a matrix of [rows] x [cols] entries to fill. *)
Class KernelDerivative := {
  BandwidthFactor : R → R;
  ComputeDirectionalDerivatives : Vector.t → Z → Z → Matrix.t;
  ComputePartialDerivative : Matrix.t → list Z → R
}.

(** [SeriesExpansionAux]: the precomputed tables, read through accessors. *)
Record SeriesExpansionAux := {
  get_dimension : Z;
  get_max_order : Z;
  get_total_num_coeffs : Z → Z;
  get_max_total_num_coeffs : Z;
  get_multiindex : Z → list Z;
  get_inv_multiindex_factorials : Vector.t;
  get_neg_inv_multiindex_factorials : Vector.t;
  factorial : Z → R;
  get_upper_mapping_index : list (list Z);
  get_n_multichoose_k_by_pos : Z → Z → R
}.

(** [FarFieldExpansion], as far as [TranslateFromFarField] reads it. *)
Record FarFieldExpansion := {
  ff_center : Vector.t;
  ff_coeffs : Vector.t;
  ff_order : Z;
  ff_bandwidth_sq : R
}.

(** ** The expansion *)

Record LocalExpansion (K : Type) := mkLocalExpansion {
  kernel_ : K;
  center_ : Vector.t;
  coeffs_ : Vector.t;
  order_ : Z;
  sea_ : SeriesExpansionAux
}.

Arguments mkLocalExpansion {K}.
Arguments kernel_ {K}.
Arguments center_ {K}.
Arguments coeffs_ {K}.
Arguments order_ {K}.
Arguments sea_ {K}.

Definition set_order {K} (new_order : Z) (e : LocalExpansion K) : LocalExpansion K :=
  mkLocalExpansion (kernel_ e) (center_ e) (coeffs_ e) new_order (sea_ e).

Definition set_coeffs {K} (c : Vector.t) (e : LocalExpansion K) : LocalExpansion K :=
  mkLocalExpansion (kernel_ e) (center_ e) c (order_ e) (sea_ e).

Definition bandwidth_sq {K} `{Kernel K} (e : LocalExpansion K) : R :=
  Kernel_bandwidth_sq (kernel_ e).

Definition get_order {K} (e : LocalExpansion K) : Z := order_ e.

(** ** Loops *)

(** A [for] loop over the indices [range] that threads the state [s] through
    [body] and stops at the first undefined step. *)
Fixpoint for_loop {S I : Type} (body : I → S → option S) (range : list I)
  (s : S) : option S :=
  match range with
  | [] => Some s
  | i :: range' => s' ← body i s; for_loop body range' s'
  end.

(** The loop [for (d = 0; d < dim; d++) x[d] = (a[d] - b[d]) / factor],
    which all four operations start with. *)
Definition scaled_difference (a b : Z → option R) (dim : Z) (factor : R)
  : option Vector.t :=
  mapM (λ d, x ← a d; y ← b d; Some ((x - y) / factor)%R) (seqZ 0 dim).

(** Two turns of loops commute: taken in either order they are defined
    together and give the same state. *)
Definition turns_commute {S : Type} (f g : S → option S) : Prop :=
  ∀ s, f s ≫= g = g s ≫= f.

(** The turn [v[j] += f j] of a loop over the entries of a vector, where the
    term [f j] may read outside of a table. *)
Definition add_terms (f : Z → option R) (j : Z) (v : Vector.t)
  : option Vector.t :=
  x ← f j; Vector.add_to v j x.

(** The split of a running sum in a positive and a negative accumulator. *)
Definition split_add (acc : R * R) (prod : R) : R * R :=
  if Rgt_dec prod 0 then ((acc.1 + prod)%R, acc.2) else (acc.1, (acc.2 + prod)%R).

Definition MAXINT : Z := 2147483647.

Section Operations.

Context {K : Type} `{Kernel K} `{KernelDerivative}.

Implicit Types (e se : LocalExpansion K) (sea : SeriesExpansionAux).

(** *** Init *)

(** [Init(bandwidth, center, sea)] *)
Definition Init_with_center (bandwidth : R) (center : Vector.t) sea
  : LocalExpansion K :=
  {| kernel_ := Kernel_Init bandwidth;
     center_ := Vector.Copy center;
     order_ := 0;
     sea_ := sea;
     coeffs_ := Vector.SetZero (Vector.Init (get_max_total_num_coeffs sea)) |}.

(** [Init(bandwidth, sea)] *)
Definition Init (bandwidth : R) sea : LocalExpansion K :=
  {| kernel_ := Kernel_Init bandwidth;
     center_ := Vector.Init (get_dimension sea);
     order_ := 0;
     sea_ := sea;
     coeffs_ := Vector.SetZero (Vector.Init (get_max_total_num_coeffs sea)) |}.

(** *** AccumulateCoeffs *)

(** The second inner loop: [coeffs_[j] += neg_inv[j] * weights[r] * arrtmp[j]]. *)
Definition add_point_terms (neg_inv weights arrtmp : Vector.t) (r : Z)
  (j : Z) (coeffs : Vector.t) : option Vector.t :=
  n ← Vector.get neg_inv j;
  w ← Vector.get weights r;
  a ← Vector.get arrtmp j;
  Vector.add_to coeffs j (n * w * a)%R.

(** One turn of the loop over the reference points. *)
Definition accumulate_point e (data : Matrix.t) (weights : Vector.t)
  (order : Z) (r : Z) (coeffs : Vector.t) : option Vector.t :=
  let dim := get_dimension (sea_ e) in
  let total_num_coeffs := get_total_num_coeffs (sea_ e) order in
  let neg_inv_multiindex_factorials :=
    get_neg_inv_multiindex_factorials (sea_ e) in
  let bandwidth_factor := BandwidthFactor (bandwidth_sq e) in
  x_r_minus_x_Q ←
    scaled_difference (Vector.get (center_ e)) (λ d, Matrix.get data d r)
      dim bandwidth_factor;
  let derivative_map :=
    ComputeDirectionalDerivatives x_r_minus_x_Q dim (order + 1) in
  let arrtmp :=
    (λ j, ComputePartialDerivative derivative_map (get_multiindex (sea_ e) j))
      <$> seqZ 0 total_num_coeffs in
  for_loop (add_point_terms neg_inv_multiindex_factorials weights arrtmp r)
    (seqZ 0 total_num_coeffs) coeffs.

Definition AccumulateCoeffs (data : Matrix.t) (weights : Vector.t)
  (begin end_ order : Z) e : option (LocalExpansion K) :=
  let e := if order >? order_ e then set_order order e else e in
  coeffs ← for_loop (accumulate_point e data weights order)
              (seqZ begin (end_ - begin)) (coeffs_ e);
  Some (set_coeffs coeffs e).

(** *** EvaluateField *)

(** The query point: row [row_num] of [data] unless [data] is null, and
    [x_q] then. *)
Definition query_coordinate (data : option Matrix.t) (row_num : Z)
  (x_q : option Vector.t) (i : Z) : option R :=
  match data with
  | None => v ← x_q; Vector.get v i
  | Some m => Matrix.get m i row_num
  end.

(** The state of the monomial recurrence: [heads], [tmp] and [t]. *)
Abbreviation monomials := (list Z * Vector.t * Z)%type.

(** [for (j = head; j < tail; j++, t++) tmp[t] = tmp[j] * x[i]] *)
Definition extend_monomial (x_i : R) (j : Z) (tmp_t : Vector.t * Z)
  : option (Vector.t * Z) :=
  m ← Vector.get tmp_t.1 j;
  tmp ← Vector.set tmp_t.1 tmp_t.2 (m * x_i)%R;
  Some (tmp, tmp_t.2 + 1).

(** The loop over the dimensions inside one order [k]. *)
Definition extend_dimension (x_Q_to_x_q : Vector.t) (tail : Z) (i : Z)
  (st : monomials) : option monomials :=
  let '(heads, tmp, t) := st in
  head ← at_index heads i;
  heads ← set_index heads i t;
  x_i ← Vector.get x_Q_to_x_q i;
  tmp_t ← for_loop (extend_monomial x_i) (seqZ head (tail - head)) (tmp, t);
  Some (heads, tmp_t.1, tmp_t.2).

(** [for (k = 1, t = 1, tail = 1; k <= order_; k++, tail = t)] *)
Definition extend_order (x_Q_to_x_q : Vector.t) (dim : Z) (k : Z)
  (st : monomials) : option monomials :=
  for_loop (extend_dimension x_Q_to_x_q st.2) (seqZ 0 dim) st.

Definition EvaluateField (data : option Matrix.t) (row_num : Z)
  (x_q : option Vector.t) e : option R :=
  let total_num_coeffs := get_total_num_coeffs (sea_ e) (order_ e) in
  let dim := get_dimension (sea_ e) in
  let bandwidth_factor := BandwidthFactor (bandwidth_sq e) in
  x_Q_to_x_q ←
    scaled_difference (query_coordinate data row_num x_q)
      (Vector.get (center_ e)) dim bandwidth_factor;
  heads ← for_loop (λ i heads, set_index heads i 0) (seqZ 0 dim)
             (replicate (Z.to_nat (dim + 1)) 0);
  heads ← set_index heads dim MAXINT;
  tmp ← Vector.set (Vector.Init total_num_coeffs) 0 1%R;
  st ← for_loop (extend_order x_Q_to_x_q dim) (seqZ 1 (order_ e))
          (heads, tmp, 1);
  for_loop (λ i sum, c ← Vector.get (coeffs_ e) i;
                     m ← Vector.get st.1.2 i;
                     Some (sum + c * m)%R)
    (seqZ 0 total_num_coeffs) 0%R.

(** *** OrderForEvaluating *)

(** The loop that finds the widest dimension of the region. *)
Definition widest_width (local_region : DHrectBound) : R :=
  foldl (λ w range, Rmax w (width range)) 0%R local_region.

(** The body of the search between [r_raised_to_p_alpha *= r] and the test
    of [ret]: [Some None] is the return of the sentinel after an invalid
    factorial, [Some (Some ret)] the bound term.  With [dim = 0] the
    conversion of [floor(p_alpha / 0.)] to [int] and [p_alpha % dim] are
    undefined.  For the integers of the source the quotient of the two
    doubles is exact enough for [floor] and [ceil] to give the integer
    floor and ceiling of [p_alpha / dim]. *)
Definition candidate sea (frontfactor r_raised_to_p_alpha : R)
  (dim p_alpha : Z) : option (option R) :=
  if dim =? 0 then None
  else
    let floor_fact := factorial sea (p_alpha / dim) in
    let ceil_fact := factorial sea (- ((- p_alpha) / dim)) in
    if Rlt_dec floor_fact 0 then Some None
    else if Rlt_dec ceil_fact 0 then Some None
    else
      let remainder := Z.rem p_alpha dim in
      Some (Some
        (frontfactor
         * IZR (get_total_num_coeffs sea (p_alpha + 1)
                - get_total_num_coeffs sea p_alpha)
         * r_raised_to_p_alpha
         / sqrt (powerRZ floor_fact (dim - remainder)
                 * powerRZ ceil_fact remainder))%R).

(** The [do ... while(1)] loop.  The result is the returned integer and the
    value stored through [actual_error], if one is stored. *)
Fixpoint order_search sea (frontfactor r max_error : R) (dim max_order : Z)
  (fuel : nat) (p_alpha : Z) (r_raised_to_p_alpha : R)
  : option (Z * option R) :=
  if p_alpha >? max_order then Some (-1, None)
  else
    match fuel with
    | O => None
    | S fuel' =>
        let r_raised_to_p_alpha := (r_raised_to_p_alpha * r)%R in
        c ← candidate sea frontfactor r_raised_to_p_alpha dim p_alpha;
        match c with
        | None => Some (-1, None)
        | Some ret =>
            if Rgt_dec ret max_error
            then order_search sea frontfactor r max_error dim max_order
                   fuel' (p_alpha + 1) r_raised_to_p_alpha
            else Some (p_alpha, Some ret)
        end
    end.

Definition OrderForEvaluating (local_region : DHrectBound)
  (min_dist_sqd_regions max_error : R) e : option (Z * option R) :=
  let frontfactor :=
    exp (- min_dist_sqd_regions / (4 * bandwidth_sq e))%R in
  let dim := bound_dim local_region in
  let max_order := get_max_order (sea_ e) in
  let two_bandwidth := (2 * sqrt (bandwidth_sq e))%R in
  let r := (widest_width local_region / two_bandwidth)%R in
  if Rge_dec r 1 then Some (-1, None)
  else order_search (sea_ e) frontfactor r max_error dim max_order
         (Z.to_nat (max_order + 1)) 0 1%R.

(** *** TranslateFromFarField *)

(** [beta_plus_alpha[d] = beta_mapping[d] + alpha_mapping[d]] *)
Definition add_multiindices (dimension : Z) (beta_mapping alpha_mapping : list Z)
  : option (list Z) :=
  mapM (λ d, b ← at_index beta_mapping d;
             a ← at_index alpha_mapping d;
             Some (b + a))
    (seqZ 0 dimension).

(** The body of the k-loop. *)
Definition far_field_term sea (derivative_map : Matrix.t)
  (far_coeffs : Vector.t) (j k : Z) (acc : R * R) : option (R * R) :=
  beta_plus_alpha ←
    add_multiindices (get_dimension sea) (get_multiindex sea j)
      (get_multiindex sea k);
  let derivative_factor :=
    ComputePartialDerivative derivative_map beta_plus_alpha in
  far_coeff ← Vector.get far_coeffs k;
  Some (split_add acc (far_coeff * derivative_factor)%R).

(** The body of the j-loop: the pair [pos_arrtmp[j]], [neg_arrtmp[j]]. *)
Definition far_field_sums sea (derivative_map : Matrix.t)
  (far_coeffs : Vector.t) (total_num_coeffs : Z) (j : Z) : option (R * R) :=
  for_loop (far_field_term sea derivative_map far_coeffs j)
    (seqZ 0 total_num_coeffs) (0%R, 0%R).

(** [coeffs_[j] += (pos_arrtmp[j] + neg_arrtmp[j]) * C_k_neg[j]] *)
Definition add_far_field_sum (arrtmp : list (R * R)) (C_k_neg : Vector.t)
  (j : Z) (coeffs : Vector.t) : option Vector.t :=
  s ← at_index arrtmp j;
  n ← Vector.get C_k_neg j;
  Vector.add_to coeffs j ((s.1 + s.2) * n)%R.

Definition TranslateFromFarField (se : FarFieldExpansion) e
  : option (LocalExpansion K) :=
  let dimension := get_dimension (sea_ e) in
  let far_order := ff_order se in
  let total_num_coeffs := get_total_num_coeffs (sea_ e) far_order in
  let bandwidth_factor := BandwidthFactor (ff_bandwidth_sq se) in
  let e := if far_order >? order_ e then set_order far_order e else e in
  let limit := 2 * order_ e + 1 in
  cent_diff ←
    scaled_difference (Vector.get (center_ e)) (Vector.get (ff_center se))
      dimension bandwidth_factor;
  let derivative_map :=
    ComputeDirectionalDerivatives cent_diff dimension limit in
  arrtmp ←
    mapM (far_field_sums (sea_ e) derivative_map (ff_coeffs se)
            total_num_coeffs)
      (seqZ 0 total_num_coeffs);
  coeffs ←
    for_loop
      (add_far_field_sum arrtmp (get_neg_inv_multiindex_factorials (sea_ e)))
      (seqZ 0 total_num_coeffs) (coeffs_ e);
  Some (set_coeffs coeffs e).

(** *** TranslateToLocal *)

(** [tmp_storage[l] = beta_mapping[l] - alpha_mapping[l]], left at the first
    negative difference: [Some None] is [flag = 1]. *)
Fixpoint exponent_differences (range : list Z) (beta_mapping alpha_mapping : list Z)
  : option (option (list Z)) :=
  match range with
  | [] => Some (Some [])
  | l :: range' =>
      b ← at_index beta_mapping l;
      a ← at_index alpha_mapping l;
      if b - a <? 0 then Some None
      else
        rest ← exponent_differences range' beta_mapping alpha_mapping;
        Some (match rest with
              | Some tmp_storage => Some ((b - a) :: tmp_storage)
              | None => None
              end)
  end.

(** [diff1 *= pow(center_diff[l], tmp_storage[l])] *)
Definition power_product (dim : Z) (center_diff : Vector.t)
  (tmp_storage : list Z) : option R :=
  for_loop (λ l diff1, c ← Vector.get center_diff l;
                       t ← at_index tmp_storage l;
                       Some (diff1 * powerRZ c t)%R)
    (seqZ 0 dim) 1%R.

(** The k-loop over the upper mappings of [j], with its [break] and
    [continue]; [coeffs] is the coefficient buffer of the receiver. *)
Fixpoint upper_sums sea (total_num_coeffs : Z) (center_diff : Vector.t)
  (coeffs : Vector.t) (j : Z) (upper_mappings_for_alpha : list Z)
  (acc : R * R) : option (R * R) :=
  match upper_mappings_for_alpha with
  | [] => Some acc
  | upper :: rest =>
      if upper >=? total_num_coeffs then Some acc
      else
        tmp_storage ←
          exponent_differences (seqZ 0 (get_dimension sea))
            (get_multiindex sea upper) (get_multiindex sea j);
        match tmp_storage with
        | None =>
            upper_sums sea total_num_coeffs center_diff coeffs j rest acc
        | Some tmp_storage =>
            diff1 ← power_product (get_dimension sea) center_diff tmp_storage;
            c ← Vector.get coeffs upper;
            let prod :=
              (c * diff1 * get_n_multichoose_k_by_pos sea upper j)%R in
            upper_sums sea total_num_coeffs center_diff coeffs j rest
              (split_add acc prod)
        end
  end.

(** Objects are addressed by their position in the store. *)
Local Abbreviation store := (list (LocalExpansion K)).

(** The body of the j-loop.  The coefficients of the receiver are read from
    the store as it is at this turn, so that a destination which is the
    receiver itself is read after the additions made so far. *)
Definition translate_index (this se : nat) (total_num_coeffs : Z)
  (center_diff : Vector.t) (j : Z) (σ : store) : option store :=
  me ← σ !! this;
  upper_mappings_for_alpha ←
    at_index (get_upper_mapping_index (sea_ me)) j;
  sums ← upper_sums (sea_ me) total_num_coeffs center_diff (coeffs_ me) j
           upper_mappings_for_alpha (0%R, 0%R);
  dest ← σ !! se;
  new_coeffs ← Vector.add_to (coeffs_ dest) j (sums.1 + sums.2)%R;
  Some (<[se := set_coeffs new_coeffs dest]> σ).

(** [this->TranslateToLocal(se)], on the objects at [this] and [se]. *)
Definition TranslateToLocal (this se : nat) (σ : store) : option store :=
  me ← σ !! this;
  dest ← σ !! se;
  let prev_order := get_order dest in
  let total_num_coeffs := get_total_num_coeffs (sea_ me) (order_ me) in
  let dim := get_dimension (sea_ me) in
  let bandwidth_factor := BandwidthFactor (bandwidth_sq me) in
  center_diff ←
    scaled_difference (Vector.get (center_ dest)) (Vector.get (center_ me))
      dim bandwidth_factor;
  let σ :=
    if prev_order <? order_ me
    then <[se := set_order (order_ me) dest]> σ else σ in
  for_loop (translate_index this se total_num_coeffs center_diff)
    (seqZ 0 total_num_coeffs) σ.

(** *** Sequences of calls *)

Inductive call :=
| CallAccumulateCoeffs (obj : nat) (data : Matrix.t) (weights : Vector.t)
    (begin end_ order : Z)
| CallTranslateFromFarField (obj : nat) (far : FarFieldExpansion)
| CallTranslateToLocal (this se : nat).

Definition exec (c : call) (σ : store) : option store :=
  match c with
  | CallAccumulateCoeffs obj data weights begin end_ order =>
      e ← σ !! obj;
      e' ← AccumulateCoeffs data weights begin end_ order e;
      Some (<[obj := e']> σ)
  | CallTranslateFromFarField obj far =>
      e ← σ !! obj;
      e' ← TranslateFromFarField far e;
      Some (<[obj := e']> σ)
  | CallTranslateToLocal this se => TranslateToLocal this se σ
  end.

Definition run (calls : list call) (σ : store) : option store :=
  for_loop exec calls σ.

End Operations.

(** ** The quantities that the properties of order selection speak of *)

Section OrderSelectionTerms.

Context {K : Type} `{Kernel K}.

Variables (e : LocalExpansion K) (local_region : DHrectBound)
  (min_dist_sqd_regions : R).

(** The kernel-dependent front factor. *)
Definition frontfactor : R :=
  exp (- min_dist_sqd_regions / (4 * bandwidth_sq e))%R.

(** The widest width of the region over twice the bandwidth. *)
Definition width_ratio : R :=
  (widest_width local_region / (2 * sqrt (bandwidth_sq e)))%R.

Definition floor_fact (p : Z) : R :=
  factorial (sea_ e) (p / bound_dim local_region).

Definition ceil_fact (p : Z) : R :=
  factorial (sea_ e) (- ((- p) / bound_dim local_region)).

(** Neither factorial lookup of the candidate order [p] gives the invalid
    (negative) value. *)
Definition factorials_valid (p : Z) : Prop :=
  ¬ (floor_fact p < 0)%R ∧ ¬ (ceil_fact p < 0)%R.

(** The bound term of the candidate order [p], in closed form. *)
Definition bound_term (p : Z) : R :=
  (frontfactor
   * IZR (get_total_num_coeffs (sea_ e) (p + 1)
          - get_total_num_coeffs (sea_ e) p)
   * width_ratio ^ Z.to_nat (p + 1)
   / sqrt (powerRZ (floor_fact p)
             (bound_dim local_region - Z.rem p (bound_dim local_region))
           * powerRZ (ceil_fact p) (Z.rem p (bound_dim local_region))))%R.

(** The search goes past the candidate [p]: its factorials are valid and
    its bound term is above the budget. *)
Definition passed (max_error : R) (p : Z) : Prop :=
  factorials_valid p ∧ (bound_term p > max_error)%R.

(** The first failure condition: the region is too wide for the kernel. *)
Definition too_wide : Prop := (width_ratio >= 1)%R.

(** The second: every order up to the maximum of the table is passed. *)
Definition capacity_exceeded (max_error : R) : Prop :=
  ∀ p, 0 ≤ p ≤ get_max_order (sea_ e) → passed max_error p.

(** The third: the search reaches an order, within the table, one of whose
    factorial lookups gives the invalid value. *)
Definition factorial_invalid (max_error : R) : Prop :=
  ∃ p, 0 ≤ p ≤ get_max_order (sea_ e) ∧ ¬ factorials_valid p
       ∧ ∀ q, 0 ≤ q < p → passed max_error q.

(** The search stops with success at the order [p]. *)
Definition found (max_error : R) (p : Z) : Prop :=
  0 ≤ p ≤ get_max_order (sea_ e) ∧ factorials_valid p
  ∧ ¬ (bound_term p > max_error)%R
  ∧ ∀ q, 0 ≤ q < p → passed max_error q.

(** What the loop returns when it is entered at the candidate [p]: the
    sentinel with nothing stored, after passing every order up to the
    maximum or at an invalid factorial, or the first order that is not
    passed with its bound term stored. *)
Definition search_outcome (max_error : R) (p : Z) (res : Z * option R) : Prop :=
  (res = (-1, None)
   ∧ ((∀ i, p ≤ i ≤ get_max_order (sea_ e) → passed max_error i)
      ∨ ∃ q, p ≤ q ≤ get_max_order (sea_ e) ∧ ¬ factorials_valid q
             ∧ ∀ i, p ≤ i < q → passed max_error i))
  ∨ ∃ q, res = (q, Some (bound_term q)) ∧ p ≤ q ≤ get_max_order (sea_ e)
         ∧ factorials_valid q ∧ ¬ (bound_term q > max_error)%R
         ∧ ∀ i, p ≤ i < q → passed max_error i.

End OrderSelectionTerms.

(** ** The terms of the other properties *)

Section PropertyTerms.

Context {K : Type}.

(** Every object of the first store is still in the second, with an order
    that is not lower. *)
Definition orders_grow (σ σ' : list (LocalExpansion K)) : Prop :=
  ∀ obj e, σ !! obj = Some e →
    ∃ e', σ' !! obj = Some e' ∧ get_order e ≤ get_order e'.

End PropertyTerms.

(** ** The terms of the properties of accumulation *)

Section AccumulationTerms.

Context {K : Type} `{Kernel K} `{KernelDerivative}.

(** The weighted points that a call of [AccumulateCoeffs] selects, in the
    order of the loop: column [r] of [data] and [weights[r]] for each [r] of
    [begin .. end - 1], each as far as it can be read. *)
Definition selected_points (data : Matrix.t) (weights : Vector.t)
  (begin end_ : Z) : list (option Vector.t * option R) :=
  (λ r, (at_index data r, Vector.get weights r))
    <$> seqZ begin (end_ - begin).

(** The turn of the loop over the reference points for one weighted point,
    taken as a data set of its own. *)
Definition accumulate_weighted_point (e : LocalExpansion K) (order : Z)
  (point : option Vector.t * option R) (coeffs : Vector.t)
  : option Vector.t :=
  accumulate_point e (option_list point.1) (option_list point.2) order 0
    coeffs.

(** The term that the point [r] adds to the coefficient [j], given the
    scaled displacement [x] of the point. *)
Definition point_term (e : LocalExpansion K) (weights : Vector.t)
  (order r : Z) (x : Vector.t) (j : Z) : option R :=
  n ← Vector.get (get_neg_inv_multiindex_factorials (sea_ e)) j;
  w ← Vector.get weights r;
  a ← Vector.get
        ((λ j, ComputePartialDerivative
                 (ComputeDirectionalDerivatives x (get_dimension (sea_ e))
                    (order + 1))
                 (get_multiindex (sea_ e) j))
           <$> seqZ 0 (get_total_num_coeffs (sea_ e) order)) j;
  Some (n * w * a)%R.

End AccumulationTerms.

(** ** The terms of the properties of translation *)

(** The plain sum of a list of reals. *)
Definition Rsum (l : list R) : R := foldr Rplus 0%R l.

Section TranslationTerms.

Context {K : Type} `{Kernel K} `{KernelDerivative}.

(** The partial derivatives at the scaled difference of the center of the
    destination and the center of the far-field source, for a destination
    of the given order. *)
Definition far_field_derivative_map (sea : SeriesExpansionAux)
  (center : Vector.t) (order : Z) (se : FarFieldExpansion)
  : option Matrix.t :=
  cent_diff ←
    scaled_difference (Vector.get center) (Vector.get (ff_center se))
      (get_dimension sea) (BandwidthFactor (ff_bandwidth_sq se));
  Some (ComputeDirectionalDerivatives cent_diff (get_dimension sea)
          (2 * order + 1)).

(** For the destination multi-index at [j]: the products, over the source
    multi-indices [k], of the source coefficient and the partial derivative
    indexed by the sum of the two multi-indices. *)
Definition far_field_products (sea : SeriesExpansionAux)
  (derivative_map : Matrix.t) (far_coeffs : Vector.t)
  (total_num_coeffs : Z) (j : Z) : option (list R) :=
  mapM (λ k, beta_plus_alpha ←
               add_multiindices (get_dimension sea) (get_multiindex sea j)
                 (get_multiindex sea k);
             far_coeff ← Vector.get far_coeffs k;
             Some (far_coeff
                   * ComputePartialDerivative derivative_map beta_plus_alpha)%R)
    (seqZ 0 total_num_coeffs).

(** The normalized sum that the far-field source [se] contributes at [j] to
    a destination with the given table, center and order: it is made of the
    source, the two centers and the tables, and of none of the destination's
    coefficients. *)
Definition far_field_normalized_sum (sea : SeriesExpansionAux)
  (center : Vector.t) (order : Z) (se : FarFieldExpansion) (j : Z)
  : option R :=
  derivative_map ← far_field_derivative_map sea center order se;
  products ←
    far_field_products sea derivative_map (ff_coeffs se)
      (get_total_num_coeffs sea (ff_order se)) j;
  n ← Vector.get (get_neg_inv_multiindex_factorials sea) j;
  Some (Rsum products * n)%R.

(** The contribution of the far-field source at the position [j] of the
    coefficient buffer: the normalized sum up to the number of coefficients
    of the order of the source, and nothing beyond. *)
Definition far_field_contribution (sea : SeriesExpansionAux)
  (center : Vector.t) (order : Z) (se : FarFieldExpansion) (j : Z) : R :=
  if bool_decide (0 ≤ j < get_total_num_coeffs sea (ff_order se))
  then default 0%R (far_field_normalized_sum sea center order se j)
  else 0%R.

(** What the local expansion [me] adds at [j] to a destination around
    [new_center]: the sum over the upper mappings of [j]. *)
Definition local_sum (me : LocalExpansion K) (new_center : Vector.t)
  (j : Z) : option R :=
  center_diff ←
    scaled_difference (Vector.get new_center) (Vector.get (center_ me))
      (get_dimension (sea_ me)) (BandwidthFactor (bandwidth_sq me));
  upper_mappings_for_alpha ←
    at_index (get_upper_mapping_index (sea_ me)) j;
  sums ←
    upper_sums (sea_ me) (get_total_num_coeffs (sea_ me) (order_ me))
      center_diff (coeffs_ me) j upper_mappings_for_alpha (0%R, 0%R);
  Some (sums.1 + sums.2)%R.

(** The contribution of the local expansion [me] at the position [j]. *)
Definition local_contribution (me : LocalExpansion K)
  (new_center : Vector.t) (j : Z) : R :=
  if bool_decide (0 ≤ j < get_total_num_coeffs (sea_ me) (order_ me))
  then default 0%R (local_sum me new_center j)
  else 0%R.

(** The reading of the far-field translation that updates the destination up
    to the number of coefficients of its own order, raised or not. *)
Definition updates_up_to_destination_order (se : FarFieldExpansion)
  (e e' : LocalExpansion K) : Prop :=
  ∀ j, 0 ≤ j < get_total_num_coeffs (sea_ e') (order_ e') →
    ∃ c x,
      Vector.get (coeffs_ e) j = Some c
      ∧ far_field_normalized_sum (sea_ e) (center_ e) (order_ e') se j
        = Some x
      ∧ Vector.get (coeffs_ e') j = Some (c + x)%R.

End TranslationTerms.

(** ** The rest of the class and the terms of its further properties *)

Section FurtherTerms.

Context {K : Type} `{Kernel K} `{KernelDerivative}.

(** [get_center()] *)
Definition get_center (e : LocalExpansion K) : Vector.t := center_ e.

(** [get_coeffs()] *)
Definition get_coeffs (e : LocalExpansion K) : Vector.t := coeffs_ e.

(** [get_max_order()] *)
Definition get_max_order_of (e : LocalExpansion K) : Z :=
  get_max_order (sea_ e).

(** [RefineCoeffs]: its body is empty, "this does not apply for local
    coefficients". *)
Definition RefineCoeffs (data : Matrix.t) (weights : Vector.t)
  (begin end_ order : Z) (e : LocalExpansion K) : LocalExpansion K := e.

(** The scaled displacement of the point [r] of [data] from the center, as
    the loop over the reference points computes it. *)
Definition point_displacement (e : LocalExpansion K) (data : Matrix.t)
  (r : Z) : option Vector.t :=
  scaled_difference (Vector.get (center_ e)) (λ d, Matrix.get data d r)
    (get_dimension (sea_ e)) (BandwidthFactor (bandwidth_sq e)).

(** The terms that the points of [begin .. end - 1] add to the coefficient
    [j], in the order of the loop. *)
Definition accumulated_terms (e : LocalExpansion K) (data : Matrix.t)
  (weights : Vector.t) (begin end_ order : Z) (j : Z) : option (list R) :=
  mapM (λ r, x ← point_displacement e data r;
             point_term e weights order r x j)
    (seqZ begin (end_ - begin)).

(** The monomials that [EvaluateField] builds before it reads a
    coefficient: the vector [tmp] after the recurrence. *)
Definition monomial_values (data : option Matrix.t) (row_num : Z)
  (x_q : option Vector.t) (e : LocalExpansion K) : option Vector.t :=
  let total_num_coeffs := get_total_num_coeffs (sea_ e) (order_ e) in
  let dim := get_dimension (sea_ e) in
  let bandwidth_factor := BandwidthFactor (bandwidth_sq e) in
  x_Q_to_x_q ←
    scaled_difference (query_coordinate data row_num x_q)
      (Vector.get (center_ e)) dim bandwidth_factor;
  heads ← for_loop (λ i heads, set_index heads i 0) (seqZ 0 dim)
             (replicate (Z.to_nat (dim + 1)) 0);
  heads ← set_index heads dim MAXINT;
  tmp ← Vector.set (Vector.Init total_num_coeffs) 0 1%R;
  st ← for_loop (extend_order x_Q_to_x_q dim) (seqZ 1 (order_ e))
          (heads, tmp, 1);
  Some st.1.2.

(** The last loop of [EvaluateField]: the sum of the products of the first
    [n] coefficients and monomials. *)
Definition dot_product (coeffs tmp : Vector.t) (n : Z) : option R :=
  for_loop (λ i sum, c ← Vector.get coeffs i;
                     m ← Vector.get tmp i;
                     Some (sum + c * m)%R)
    (seqZ 0 n) 0%R.

(** The value at [x] of the polynomial of the first [n] coefficients. *)
Definition polynomial (coeffs : Vector.t) (x : R) (n : Z) : R :=
  Rsum ((λ j, default 0 (Vector.get coeffs j) * x ^ Z.to_nat j)%R
          <$> seqZ 0 n).

(** The sum of the positive members of a list, and the sum of the others:
    what the two accumulators of a split sum hold. *)
Fixpoint positive_sum (l : list R) : R :=
  match l with
  | [] => 0%R
  | x :: l' => if Rgt_dec x 0 then (x + positive_sum l')%R else positive_sum l'
  end.

Fixpoint nonpositive_sum (l : list R) : R :=
  match l with
  | [] => 0%R
  | x :: l' =>
      if Rgt_dec x 0 then nonpositive_sum l' else (x + nonpositive_sum l')%R
  end.

(** The turn of the j-loop of [TranslateToLocal] when the destination is the
    receiver itself: the sums are read from the buffer that is added into. *)
Definition translate_in_place (sea : SeriesExpansionAux)
  (total_num_coeffs : Z) (center_diff : Vector.t) (j : Z) (coeffs : Vector.t)
  : option Vector.t :=
  upper_mappings_for_alpha ← at_index (get_upper_mapping_index sea) j;
  sums ← upper_sums sea total_num_coeffs center_diff coeffs j
           upper_mappings_for_alpha (0%R, 0%R);
  Vector.add_to coeffs j (sums.1 + sums.2)%R.

End FurtherTerms.

(** ** A concrete setting: the Gaussian kernel on the line

    An instance of the two template parameters and a table for dimension 1
    and orders up to 2, for running the operations on explicit inputs. *)

Module Gaussian.

(** The kernel keeps the square of its bandwidth. *)
#[export] Instance kernel : Kernel R := {|
  Kernel_Init bandwidth := (bandwidth * bandwidth)%R;
  Kernel_bandwidth_sq k := k
|}.

(** The derivatives of [exp (- x * x)] of the orders [n] and [n - 1], by the
    recurrence [h (k + 1) = 2 x * h k - 2 k * h (k - 1)]. *)
Fixpoint hermite_pair (x : R) (n : nat) : R * R :=
  match n with
  | O => (exp (- x * x), 0)%R
  | S k =>
      let hs := hermite_pair x k in
      (2 * x * hs.1 - 2 * INR k * hs.2, hs.1)%R
  end.

Definition hermite (x : R) (n : nat) : R := (hermite_pair x n).1.

(** Column [c] of the map holds the derivative of order [c] in each
    coordinate of the displacement. *)
Definition derivative_map (x : Vector.t) (rows cols : Z) : Matrix.t :=
  (λ c, (λ d, hermite (default 0%R (x !! d)) c) <$> seq 0 (Z.to_nat rows))
    <$> seq 0 (Z.to_nat cols).

(** The product over the coordinates [d] of the entry at [(d, mapping[d])]. *)
Definition partial_derivative (m : Matrix.t) (mapping : list Z) : R :=
  foldl (λ acc d,
           let entry := Matrix.get m (Z.of_nat d) (default 0 (mapping !! d)) in
           (acc * default 0 entry)%R)
    1%R (seq 0 (length mapping)).

#[export] Instance derivative : KernelDerivative := {|
  BandwidthFactor bandwidth_sq := sqrt (2 * bandwidth_sq);
  ComputeDirectionalDerivatives := derivative_map;
  ComputePartialDerivative := partial_derivative
|}.

(** The table of dimension 1 for the orders 0, 1 and 2: the multi-index at
    position [j] is [[j]]. *)
Definition table : SeriesExpansionAux := {|
  get_dimension := 1;
  get_max_order := 2;
  get_total_num_coeffs order := order + 1;
  get_max_total_num_coeffs := 3;
  get_multiindex j := [j];
  get_inv_multiindex_factorials := [1; 1; 1 / 2]%R;
  get_neg_inv_multiindex_factorials := [1; -1; 1 / 2]%R;
  factorial n :=
    if n =? 0 then 1%R else if n =? 1 then 1%R else if n =? 2 then 2%R
    else (-1)%R;
  get_upper_mapping_index := [[0; 1; 2]; [1; 2]; [2]];
  get_n_multichoose_k_by_pos n k :=
    if (n =? 2) && (k =? 1) then 2%R else 1%R
|}.

(** An expansion of bandwidth 1 around the origin, with the given order and
    coefficients. *)
Definition expansion (order : Z) (coeffs : Vector.t) : LocalExpansion R :=
  {| kernel_ := Kernel_Init 1%R;
     center_ := [0%R];
     coeffs_ := coeffs;
     order_ := order;
     sea_ := table |}.

(** A far-field expansion of order 0 around the origin, of bandwidth 1. *)
Definition far_source : FarFieldExpansion :=
  {| ff_center := [0%R];
     ff_coeffs := [1; 0; 0]%R;
     ff_order := 0;
     ff_bandwidth_sq := 1 |}.

(** A far-field expansion whose coefficients are all zero. *)
Definition zero_source : FarFieldExpansion :=
  {| ff_center := [0%R];
     ff_coeffs := [0; 0; 0]%R;
     ff_order := 0;
     ff_bandwidth_sq := 1 |}.

(** An interval half as wide as the unit interval. *)
Definition half_region : list DRange := [mkDRange 0 (1 / 2)].

(** Two expansions of the orders 0 and 1. *)
Definition two_expansions : list (LocalExpansion R) :=
  [expansion 0 [0; 0; 0]%R; expansion 1 [1; 2; 0]%R].

(** The unit interval as a region. *)
Definition unit_region : DHrectBound := [mkDRange 0 1].

(** An interval as wide as twice the bandwidth. *)
Definition wide_region : DHrectBound := [mkDRange 0 2].

End Gaussian.

(** * Properties *)

(** ** Indexed containers and loops *)

Section Containers.

Context {A : Type}.

Implicit Types (l : list A) (i j : Z).

Lemma at_index_Some l i x :
  at_index l i = Some x ↔ 0 ≤ i ∧ l !! Z.to_nat i = Some x.
Proof.
  unfold at_index. destruct (Z.ltb_spec i 0); split;
    [done | lia | tauto | tauto].
Qed.

Lemma at_index_of_nat l (n : nat) : at_index l (Z.of_nat n) = l !! n.
Proof.
  unfold at_index. destruct (Z.ltb_spec (Z.of_nat n) 0); [lia |].
  by rewrite Nat2Z.id.
Qed.

Lemma at_index_is_Some l i :
  is_Some (at_index l i) ↔ 0 ≤ i < Z.of_nat (length l).
Proof.
  unfold at_index. destruct (Z.ltb_spec i 0).
  - split; [by intros [? ?] | lia].
  - rewrite lookup_lt_is_Some. lia.
Qed.

Lemma set_index_Some l i x l' :
  set_index l i x = Some l' ↔
  0 ≤ i < Z.of_nat (length l) ∧ l' = <[Z.to_nat i := x]> l.
Proof.
  unfold set_index. destruct (Z.ltb_spec i 0).
  - split; [done | lia].
  - destruct (Nat.ltb_spec (Z.to_nat i) (length l)).
    + split; [intros [= <-]; split; [lia | done] | by intros [_ ->]].
    + split; [done | lia].
Qed.

Lemma set_index_length l i x l' :
  set_index l i x = Some l' → length l' = length l.
Proof. rewrite set_index_Some. intros [_ ->]. apply length_insert. Qed.

Lemma set_index_same l i x l' :
  set_index l i x = Some l' → at_index l' i = Some x.
Proof.
  rewrite set_index_Some. intros [Hi ->]. apply at_index_Some.
  split; [lia |]. apply list_lookup_insert_eq. lia.
Qed.

Lemma set_index_other l i x l' j :
  set_index l i x = Some l' → j ≠ i → at_index l' j = at_index l j.
Proof.
  rewrite set_index_Some. intros [Hi ->] Hne. unfold at_index.
  destruct (Z.ltb_spec j 0); [done |].
  apply list_lookup_insert_ne. lia.
Qed.

End Containers.

Section Loops.

Context {S I : Type}.

Implicit Types (body : I → S → option S) (range : list I).

Lemma for_loop_ext body1 body2 range s :
  (∀ i s, body1 i s = body2 i s) →
  for_loop body1 range s = for_loop body2 range s.
Proof.
  intros Hext. revert s. induction range as [|i range IH]; intros s; simpl.
  - done.
  - rewrite Hext. destruct (body2 i s); simpl; [apply IH | done].
Qed.

Lemma for_loop_app body range1 range2 s :
  for_loop body (range1 ++ range2) s
  = for_loop body range1 s ≫= for_loop body range2.
Proof.
  revert s. induction range1 as [|i range1 IH]; intros s; simpl.
  - done.
  - destruct (body i s); simpl; [apply IH | done].
Qed.

Lemma for_loop_fmap {J : Type} (f : J → I) body (range : list J) s :
  for_loop body (f <$> range) s = for_loop (λ j, body (f j)) range s.
Proof.
  revert s. induction range as [|j range IH]; intros s; simpl.
  - done.
  - destruct (body (f j) s); simpl; [apply IH | done].
Qed.

(** A relation between states that every turn of the body establishes holds
    between the state before and the state after the loop. *)
Lemma for_loop_preorder (Rel : S → S → Prop) body range :
  (∀ s, Rel s s) →
  (∀ s1 s2 s3, Rel s1 s2 → Rel s2 s3 → Rel s1 s3) →
  (∀ i s s', body i s = Some s' → Rel s s') →
  ∀ s s', for_loop body range s = Some s' → Rel s s'.
Proof.
  intros Hrefl Htrans Hstep.
  induction range as [|i range IH]; intros s s'; simpl.
  - intros [= <-]. apply Hrefl.
  - destruct (body i s) as [s1|] eqn:Hbody; simpl; [| done].
    intros Hrest. eapply Htrans; [by eapply Hstep | by apply IH].
Qed.

Lemma turns_commute_loop_r (f : S → option S) body range :
  (∀ i, turns_commute f (body i)) →
  turns_commute f (for_loop body range).
Proof.
  intros Hcomm. induction range as [|i range IH]; intros s; simpl.
  - by destruct (f s).
  - specialize (Hcomm i s).
    destruct (body i s) as [s1|], (f s) as [s2|]; simpl in *.
    + by rewrite <- IH, <- Hcomm.
    + by rewrite <- IH, <- Hcomm.
    + by rewrite Hcomm.
    + done.
Qed.

Lemma turns_commute_ext (t1 t1' t2 t2' : S → option S) :
  (∀ s, t1 s = t1' s) → (∀ s, t2 s = t2' s) →
  turns_commute t1' t2' → turns_commute t1 t2.
Proof.
  intros E1 E2 Hc s. specialize (Hc s). rewrite E1, E2.
  destruct (t1' s), (t2' s); simpl in *; by rewrite ?E1, ?E2.
Qed.

(** Turns that first read something of their own commute when they commute
    for every value read. *)
Lemma turns_commute_guard {X Y : Type} (o1 : option X) (o2 : option Y)
  (t1 : X → S → option S) (t2 : Y → S → option S) :
  (∀ x y, turns_commute (t1 x) (t2 y)) →
  turns_commute (λ s, o1 ≫= λ x, t1 x s) (λ s, o2 ≫= λ y, t2 y s).
Proof.
  intros Hc s. destruct o1 as [x|], o2 as [y|]; simpl.
  - apply Hc.
  - by destruct (t1 x s).
  - by destruct (t2 y s).
  - done.
Qed.

(** A loop whose turns commute with each other may take its indices in any
    order. *)
Lemma for_loop_Permutation body range1 range2 :
  (∀ i j, turns_commute (body i) (body j)) →
  range1 ≡ₚ range2 →
  ∀ s, for_loop body range1 s = for_loop body range2 s.
Proof.
  intros Hcomm Hperm.
  induction Hperm as [| i l1 l2 _ IH | i j l | l1 l2 l3 _ IH1 _ IH2];
    intros s; simpl.
  - done.
  - destruct (body i s); simpl; [apply IH | done].
  - specialize (Hcomm j i s).
    destruct (body i s) as [s1|], (body j s) as [s2|]; simpl in *;
      try done.
    + by rewrite Hcomm.
    + by rewrite <- Hcomm.
    + by rewrite Hcomm.
  - by rewrite IH1.
Qed.

End Loops.

(** ** Order selection *)

Section OrderSelection.

Context {K : Type} `{Kernel K} `{KernelDerivative}.

Variables (e : LocalExpansion K) (local_region : DHrectBound)
  (min_dist_sqd_regions : R).

Local Abbreviation sea := (sea_ e).
Local Abbreviation ff := (frontfactor e min_dist_sqd_regions).
Local Abbreviation r := (width_ratio e local_region).
Local Abbreviation d := (bound_dim local_region).
Local Abbreviation M := (get_max_order (sea_ e)).
Local Abbreviation valid := (factorials_valid e local_region).
Local Abbreviation bound := (bound_term e local_region min_dist_sqd_regions).
Local Abbreviation passed := (passed e local_region min_dist_sqd_regions).
Local Abbreviation found := (found e local_region min_dist_sqd_regions).
Local Abbreviation search := (order_search sea ff r).
Local Abbreviation search_outcome :=
  (search_outcome e local_region min_dist_sqd_regions).

Lemma bound_dim_nonzero : local_region ≠ [] → d ≠ 0.
Proof. destruct local_region; [done | intros _; unfold bound_dim; simpl; lia]. Qed.

Lemma candidate_valid p :
  d ≠ 0 → valid p →
  candidate sea ff (r ^ Z.to_nat (p + 1)) d p = Some (Some (bound p)).
Proof.
  intros Hd [Hf Hc]. unfold candidate.
  apply Z.eqb_neq in Hd. rewrite Hd.
  fold (floor_fact e local_region p) (ceil_fact e local_region p).
  destruct (Rlt_dec _ 0) as [|_]; [done |].
  destruct (Rlt_dec _ 0) as [|_]; [done |].
  reflexivity.
Qed.

Lemma candidate_invalid p :
  d ≠ 0 → ¬ valid p →
  candidate sea ff (r ^ Z.to_nat (p + 1)) d p = Some None.
Proof.
  intros Hd Hv. unfold candidate.
  apply Z.eqb_neq in Hd. rewrite Hd.
  fold (floor_fact e local_region p) (ceil_fact e local_region p).
  destruct (Rlt_dec _ 0) as [|Hf]; [done |].
  destruct (Rlt_dec _ 0) as [|Hc]; [done |].
  destruct Hv. by split.
Qed.

Lemma valid_dec p : valid p ∨ ¬ valid p.
Proof.
  unfold factorials_valid.
  destruct (Rlt_dec (floor_fact e local_region p) 0);
    destruct (Rlt_dec (ceil_fact e local_region p) 0); tauto.
Qed.

Lemma raised_power p : 0 ≤ p →
  (r ^ Z.to_nat p * r)%R = (r ^ Z.to_nat (p + 1))%R.
Proof.
  intros Hp. replace (Z.to_nat (p + 1)) with (S (Z.to_nat p)) by lia.
  simpl. ring.
Qed.

Lemma order_search_outcome max_error fuel :
  d ≠ 0 → ∀ p, 0 ≤ p → (Z.to_nat (M + 1 - p) ≤ fuel)%nat →
  ∃ res, search max_error d M fuel p (r ^ Z.to_nat p)%R = Some res
         ∧ search_outcome max_error p res.
Proof.
  intros Hd. induction fuel as [|fuel IH]; intros p Hp Hfuel.
  - exists (-1, None). simpl.
    destruct (Z.gtb_spec p M); [| lia]. split; [done |].
    left. split; [done |]. left. intros i Hi. lia.
  - simpl. destruct (Z.gtb_spec p M) as [Hgt | Hle].
    { exists (-1, None). split; [done |].
      left. split; [done |]. left. intros i Hi. lia. }
    rewrite raised_power by done.
    destruct (valid_dec p) as [Hv | Hv].
    + rewrite candidate_valid by done. simpl.
      destruct (Rgt_dec (bound p) max_error) as [Hgt | Hngt].
      * destruct (IH (p + 1)) as (res & Hres & Hout); [lia | lia |].
        exists res. split; [done |].
        assert (Hstep : ∀ i (P : Z → Prop),
                  (∀ j, p + 1 ≤ j < i → P j) → P p → ∀ j, p ≤ j < i → P j).
        { intros i P HP Hpp j Hj.
          destruct (decide (j = p)) as [-> | ?]; [done | apply HP; lia]. }
        destruct Hout as [[-> [Hall | (q & Hq & Hnv & Hbefore)]]
                         | (q & -> & Hq & Hvq & Hbq & Hbefore)].
        -- left. split; [done |]. left. intros i Hi.
           destruct (decide (i = p)) as [-> | ?]; [by split | apply Hall; lia].
        -- left. split; [done |]. right. exists q.
           split; [lia |]. split; [done |].
           apply Hstep; [done | by split].
        -- right. exists q. split; [done |]. split; [lia |].
           split; [done |]. split; [done |].
           apply Hstep; [done | by split].
      * exists (p, Some (bound p)). split; [done |].
        right. exists p. split; [done |]. split; [lia |].
        split; [done |]. split; [done |]. intros i Hi. lia.
    + rewrite candidate_invalid by done. simpl.
      exists (-1, None). split; [done |].
      left. split; [done |]. right. exists p.
      split; [lia |]. split; [done |]. intros i Hi. lia.
Qed.

(** The procedure returns, and what it returns is either the sentinel with
    nothing stored, for one of the three reasons, or the order found with
    its bound term stored. *)
Lemma OrderForEvaluating_outcome max_error :
  local_region ≠ [] →
  ∃ res,
    OrderForEvaluating local_region min_dist_sqd_regions max_error e = Some res
    ∧ ((res = (-1, None)
        ∧ (too_wide e local_region
           ∨ capacity_exceeded e local_region min_dist_sqd_regions max_error
           ∨ factorial_invalid e local_region min_dist_sqd_regions max_error))
       ∨ ∃ p, res = (p, Some (bound p)) ∧ ¬ too_wide e local_region
              ∧ found max_error p).
Proof.
  intros Hne. apply bound_dim_nonzero in Hne.
  unfold OrderForEvaluating.
  fold ff. fold r.
  destruct (Rge_dec r 1) as [Hw | Hw].
  { exists (-1, None). split; [done |]. left. split; [done |]. by left. }
  destruct (order_search_outcome max_error (Z.to_nat (M + 1)) Hne 0)
    as (res & Hres & Hout); [lia | lia |].
  change (r ^ Z.to_nat 0)%R with 1%R in Hres.
  exists res. split; [done |].
  destruct Hout as [[-> [Hall | (q & Hq & Hnv & Hbefore)]]
                   | (q & -> & Hq & Hvq & Hbq & Hbefore)].
  - left. split; [done |]. right. by left.
  - left. split; [done |]. right. right. by exists q.
  - right. exists q. split; [done |]. split; [exact Hw |].
    split; [lia |]. split; [done |]. split; [done |]. exact Hbefore.
Qed.

(** The three reasons exclude a successful stop. *)
Lemma found_not_failed max_error p :
  found max_error p →
  ¬ (capacity_exceeded e local_region min_dist_sqd_regions max_error
     ∨ factorial_invalid e local_region min_dist_sqd_regions max_error).
Proof.
  intros (Hp & Hv & Hb & Hbefore) [Hall | (q & Hq & Hnv & Hqbefore)].
  - destruct (Hall p Hp) as [_ Hgt]. done.
  - destruct (Z.lt_trichotomy p q) as [Hlt | [-> | Hgt]].
    + destruct (Hqbefore p) as [_ ?]; [lia | done].
    + done.
    + destruct (Hbefore q) as [? _]; [lia | done].
Qed.

Lemma found_unique max_error p q :
  found max_error p → found max_error q → p = q.
Proof.
  intros (Hp & Hvp & Hbp & Hpb) (Hq & Hvq & Hbq & Hqb).
  destruct (Z.lt_trichotomy p q) as [Hlt | [-> | Hgt]]; [| done |].
  - destruct (Hqb p) as [_ ?]; [lia | done].
  - destruct (Hpb q) as [_ ?]; [lia | done].
Qed.

(** A run of the search that is known from its bound terms. *)
Lemma OrderForEvaluating_found max_error p :
  local_region ≠ [] → ¬ too_wide e local_region → found max_error p →
  OrderForEvaluating local_region min_dist_sqd_regions max_error e
  = Some (p, Some (bound p)).
Proof.
  intros Hne Hw Hfound.
  destruct (OrderForEvaluating_outcome max_error Hne)
    as (res & -> & [[_ [? | Hfail]] | (q & -> & _ & Hq)]).
  - done.
  - by destruct (found_not_failed max_error p Hfound).
  - by rewrite (found_unique max_error p q Hfound Hq).
Qed.

End OrderSelection.

(** ** Order selection in the concrete setting *)

Section OrderSelectionExample.

Import Gaussian.

Local Abbreviation ex := (expansion 0 [0; 0; 0]%R).

(** Evaluates the integer under a conversion to [R]. *)
Ltac eval_IZR :=
  repeat match goal with
         | |- context [IZR (?f ?a ?b)] =>
             let z := eval vm_compute in (f a b) in
             change (IZR (f a b)) with (IZR z)
         end.

Lemma example_frontfactor : frontfactor ex 0 = 1%R.
Proof.
  unfold frontfactor, bandwidth_sq. simpl.
  replace (- 0 / (4 * (1 * 1)))%R with 0%R by lra. apply exp_0.
Qed.

Lemma example_width_ratio : width_ratio ex unit_region = (1 / 2)%R.
Proof.
  unfold width_ratio, widest_width, bandwidth_sq, width. simpl.
  rewrite Rmult_1_r, sqrt_1, Rmax_right by lra. lra.
Qed.

Lemma example_not_too_wide : ¬ too_wide ex unit_region.
Proof. unfold too_wide. rewrite example_width_ratio. lra. Qed.

Lemma example_valid p : 0 ≤ p ≤ 2 → factorials_valid ex unit_region p.
Proof.
  intros Hp. unfold factorials_valid, floor_fact, ceil_fact. simpl.
  assert (Hcases : p = 0 ∨ p = 1 ∨ p = 2) by lia.
  destruct Hcases as [-> | [-> | ->]]; simpl; split; lra.
Qed.

Lemma example_bound_0 : bound_term ex unit_region 0 0 = (1 / 2)%R.
Proof.
  unfold bound_term. rewrite example_frontfactor, example_width_ratio.
  unfold floor_fact, ceil_fact. simpl. eval_IZR.
  replace (1 * 1 * 1)%R with 1%R by lra. rewrite sqrt_1. lra.
Qed.

Lemma example_bound_1 : bound_term ex unit_region 0 1 = (1 / 4)%R.
Proof.
  unfold bound_term. rewrite example_frontfactor, example_width_ratio.
  unfold floor_fact, ceil_fact. simpl. eval_IZR.
  replace (1 * 1 * 1)%R with 1%R by lra. rewrite sqrt_1. lra.
Qed.

(** With the budget 3/10 the search passes the order 0 and stops at 1. *)
Lemma example_found_1 : found ex unit_region 0 (3 / 10) 1.
Proof.
  split; [simpl; lia |]. split; [apply example_valid; lia |].
  split; [rewrite example_bound_1; lra |].
  intros q Hq. assert (q = 0) as -> by lia.
  split; [apply example_valid; lia | rewrite example_bound_0; lra].
Qed.

Lemma example_order_1 :
  OrderForEvaluating unit_region 0 (3 / 10) ex = Some (1, Some (1 / 4)%R).
Proof.
  rewrite <- example_bound_1.
  apply OrderForEvaluating_found;
    [done | apply example_not_too_wide | apply example_found_1].
Qed.

(** The region that is as wide as twice the bandwidth is refused. *)
Lemma example_too_wide max_error :
  OrderForEvaluating wide_region 0 max_error ex = Some (-1, None).
Proof.
  unfold OrderForEvaluating, widest_width, bandwidth_sq, width. simpl.
  rewrite Rmult_1_r, sqrt_1, Rmax_right by lra.
  destruct (Rge_dec _ 1) as [_ | Hlt]; [done | lra].
Qed.

End OrderSelectionExample.

(** ** The properties of order selection *)

Section OrderSelectionProperties.

Context {K : Type} `{Kernel K} `{KernelDerivative}.

Implicit Types (e : LocalExpansion K) (local_region : DHrectBound).

(** C4. On a region of at least one dimension [OrderForEvaluating] returns
    (it raises nothing and meets nothing undefined), and the integer it
    returns is the sentinel -1 if and only if one of the three failure
    conditions holds: the widest width of the region over twice the
    bandwidth is at least 1; or the search passes every order up to the
    maximum order of the table with the bound term above [max_error]; or
    the search reaches an order for which the factorial of the floor or of
    the ceiling of the order over the dimension is the invalid value. *)
Theorem OrderForEvaluating_sentinel_iff e local_region min_dist_sqd_regions
  max_error :
  local_region ≠ [] →
  ∃ ret stored,
    OrderForEvaluating local_region min_dist_sqd_regions max_error e
    = Some (ret, stored)
    ∧ (ret = -1
       ↔ too_wide e local_region
         ∨ capacity_exceeded e local_region min_dist_sqd_regions max_error
         ∨ factorial_invalid e local_region min_dist_sqd_regions max_error).
Proof.
  intros Hne.
  destruct (OrderForEvaluating_outcome e local_region min_dist_sqd_regions
              max_error Hne)
    as (res & Hres & [[-> Hwhy] | (p & -> & Hw & Hfound)]).
  - exists (-1), None. split; [done |]. tauto.
  - exists p, (Some (bound_term e local_region min_dist_sqd_regions p)).
    split; [done |]. split.
    + intros ->. destruct Hfound as [? _]. lia.
    + intros [? | Hfail]; [done |].
      by destruct (found_not_failed _ _ _ _ _ Hfound).
Qed.

(** C5. When [OrderForEvaluating] returns a non-negative order, that order
    is the smallest candidate whose bound term is at or below [max_error]
    (every smaller candidate has its bound term above it) and the value
    stored through [actual_error] is exactly that bound term; and when every
    candidate up to the maximum order of the table has its bound term above
    [max_error], the sentinel is returned. *)
Theorem OrderForEvaluating_smallest_order e local_region
  min_dist_sqd_regions max_error ret stored :
  OrderForEvaluating local_region min_dist_sqd_regions max_error e
  = Some (ret, stored) →
  local_region ≠ [] →
  (0 ≤ ret →
   (bound_term e local_region min_dist_sqd_regions ret <= max_error)%R
   ∧ (∀ q, 0 ≤ q < ret →
        (max_error < bound_term e local_region min_dist_sqd_regions q)%R)
   ∧ stored = Some (bound_term e local_region min_dist_sqd_regions ret))
  ∧ ((∀ q, 0 ≤ q ≤ get_max_order (sea_ e) →
        (max_error < bound_term e local_region min_dist_sqd_regions q)%R) →
     ret = -1).
Proof.
  intros Hrun Hne.
  destruct (OrderForEvaluating_outcome e local_region min_dist_sqd_regions
              max_error Hne)
    as (res & Hres & [[-> Hwhy] | (p & -> & Hw & Hfound)]);
    rewrite Hrun in Hres; injection Hres as -> ->.
  - split; [intros ?; lia | done].
  - rename p into ret. destruct Hfound as (Hp & Hv & Hb & Hbefore). split.
    + intros _. split; [lra |]. split; [| done].
      intros q Hq. destruct (Hbefore q Hq) as [_ ?]. lra.
    + intros Hall. specialize (Hall ret Hp). lra.
Qed.

(** C6. Order selection is monotone in the error budget: for one region and
    one minimum squared distance and two budgets [max_error1 <= max_error2], if
    [OrderForEvaluating] with [max_error1] returns an order [p1] that is not the
    sentinel, then with [max_error2] it returns an order [p2] that is not the
    sentinel either, and [p2 <= p1]. *)
Theorem OrderForEvaluating_monotone e local_region min_dist_sqd_regions
  max_error1 max_error2 p1 stored1 :
  (max_error1 <= max_error2)%R →
  OrderForEvaluating local_region min_dist_sqd_regions max_error1 e
  = Some (p1, stored1) →
  p1 ≠ -1 →
  ∃ p2 stored2,
    OrderForEvaluating local_region min_dist_sqd_regions max_error2 e
    = Some (p2, stored2)
    ∧ p2 ≠ -1 ∧ p2 ≤ p1.
Proof.
  intros Hle Hrun1 Hp1.
  assert (Hne : local_region ≠ []).
  { intros ->. unfold OrderForEvaluating in Hrun1. simpl in Hrun1.
    destruct (Rge_dec _ 1); [by injection Hrun1 as <- _ |].
    destruct (Z.to_nat _); simpl in Hrun1;
      destruct (_ >? _); by try injection Hrun1 as <- _. }
  destruct (OrderForEvaluating_outcome e local_region min_dist_sqd_regions
              max_error1 Hne)
    as (res1 & Hres1 & [[-> _] | (q1 & -> & Hw & Hf1)]);
    rewrite Hrun1 in Hres1; [by injection Hres1 as -> _ |].
  injection Hres1 as <- ->.
  destruct Hf1 as (Hq1 & Hv1 & Hb1 & Hbefore1).
  destruct (OrderForEvaluating_outcome e local_region min_dist_sqd_regions
              max_error2 Hne)
    as (res2 & Hres2 & [[-> [? | [Hall | (q & Hq & Hnv & Hqb)]]]
                       | (q2 & -> & _ & Hq2 & Hv2 & Hb2 & Hbefore2)]).
  - done.
  - destruct (Hall p1 Hq1) as [_ ?]. lra.
  - destruct (Z.lt_trichotomy p1 q) as [Hlt | [-> | Hgt]].
    + destruct (Hqb p1) as [_ ?]; [lia | lra].
    + done.
    + destruct (Hbefore1 q) as [? _]; [lia | done].
  - exists q2, (Some (bound_term e local_region min_dist_sqd_regions q2)).
    split; [done |]. split; [lia |].
    destruct (Z.le_gt_cases q2 p1) as [? | Hgt]; [done |].
    destruct (Hbefore2 p1) as [_ ?]; [lia | lra].
Qed.

(** The loop stores a value exactly on the path that leaves it through
    [break]. *)
Lemma order_search_stored sea frontfactor r max_error dim max_order fuel :
  ∀ p rp ret stored,
    0 ≤ p →
    order_search sea frontfactor r max_error dim max_order fuel p rp
    = Some (ret, stored) →
    (ret = -1 ∧ stored = None) ∨ (0 ≤ ret ∧ is_Some stored).
Proof.
  induction fuel as [|fuel IH]; intros p rp ret stored Hp; simpl.
  - destruct (p >? max_order); [| done]. intros [= <- <-]. by left.
  - destruct (p >? max_order); [intros [= <- <-]; by left |].
    destruct (candidate _ _ _ _ _) as [[bound |] |]; simpl;
      [| intros [= <- <-]; by left | done].
    destruct (Rgt_dec bound max_error).
    + apply IH. lia.
    + intros [= <- <-]. right. split; [done | by eexists].
Qed.

(** C10. On every path of [OrderForEvaluating] that returns the sentinel -1
    nothing is stored through [actual_error]; a value is stored exactly when
    the order returned is not the sentinel. *)
Theorem OrderForEvaluating_sentinel_stores_nothing e local_region
  min_dist_sqd_regions max_error ret stored :
  OrderForEvaluating local_region min_dist_sqd_regions max_error e
  = Some (ret, stored) →
  (ret = -1 → stored = None) ∧ (ret ≠ -1 → is_Some stored).
Proof.
  unfold OrderForEvaluating.
  destruct (Rge_dec _ 1); [intros [= <- <-]; split; done |].
  intros Hrun. apply order_search_stored in Hrun; [| lia].
  destruct Hrun as [[-> ->] | [Hret Hstored]]; split; try done. lia.
Qed.

End OrderSelectionProperties.

(** The properties at explicit inputs. *)

Section OrderSelectionWitnesses.

Import Gaussian.

Lemma OrderForEvaluating_sentinel_iff_witness :
  Gaussian.unit_region ≠ []
  ∧ ∃ ret stored,
      OrderForEvaluating Gaussian.unit_region 0 (3 / 10)
        (Gaussian.expansion 0 [0; 0; 0]%R)
      = Some (ret, stored)
      ∧ (ret = -1
         ↔ too_wide (Gaussian.expansion 0 [0; 0; 0]%R) Gaussian.unit_region
           ∨ capacity_exceeded (Gaussian.expansion 0 [0; 0; 0]%R)
               Gaussian.unit_region 0 (3 / 10)
           ∨ factorial_invalid (Gaussian.expansion 0 [0; 0; 0]%R)
               Gaussian.unit_region 0 (3 / 10)).
Proof.
  split; [done |].
  apply (OrderForEvaluating_sentinel_iff
           (Gaussian.expansion 0 [0; 0; 0]%R) Gaussian.unit_region
           0 (3 / 10)).
  done.
Defined.

Lemma OrderForEvaluating_smallest_order_witness :
  (0 ≤ 1 →
   (bound_term (Gaussian.expansion 0 [0; 0; 0]%R) Gaussian.unit_region 0 1
    <= 3 / 10)%R
   ∧ (∀ q, 0 ≤ q < 1 →
        (3 / 10 < bound_term (Gaussian.expansion 0 [0; 0; 0]%R)
                    Gaussian.unit_region 0 q)%R)
   ∧ Some (1 / 4)%R
     = Some (bound_term (Gaussian.expansion 0 [0; 0; 0]%R)
               Gaussian.unit_region 0 1))
  ∧ ((∀ q, 0 ≤ q ≤ 2 →
        (3 / 10 < bound_term (Gaussian.expansion 0 [0; 0; 0]%R)
                    Gaussian.unit_region 0 q)%R) →
     1 = -1).
Proof.
  apply (OrderForEvaluating_smallest_order
           (Gaussian.expansion 0 [0; 0; 0]%R) Gaussian.unit_region
           0 (3 / 10) 1 (Some (1 / 4)%R)).
  - exact example_order_1.
  - done.
Defined.

Lemma OrderForEvaluating_monotone_witness :
  ∃ p2 stored2,
    OrderForEvaluating Gaussian.unit_region 0 (6 / 10)
      (Gaussian.expansion 0 [0; 0; 0]%R)
    = Some (p2, stored2)
    ∧ p2 ≠ -1 ∧ p2 ≤ 1.
Proof.
  apply (OrderForEvaluating_monotone
           (Gaussian.expansion 0 [0; 0; 0]%R) Gaussian.unit_region 0
           (3 / 10) (6 / 10) 1 (Some (1 / 4)%R)).
  - lra.
  - exact example_order_1.
  - lia.
Defined.

Lemma OrderForEvaluating_sentinel_stores_nothing_witness :
  (-1 = -1 → @None R = None) ∧ (-1 ≠ -1 → is_Some (@None R)).
Proof.
  apply (OrderForEvaluating_sentinel_stores_nothing
           (Gaussian.expansion 0 [0; 0; 0]%R) Gaussian.wide_region 0
           (3 / 10) (-1) None).
  exact (example_too_wide (3 / 10)).
Defined.

End OrderSelectionWitnesses.

(** ** Initialization *)

Section Initialization.

Context {K : Type} `{Kernel K} `{KernelDerivative}.

(** C9. After either overload of [Init] the order of the expansion is 0 and
    its coefficient buffer has as many entries as the table's maximum total
    number of coefficients, every one of them zero; after the overload that
    takes no center, the center is the zero vector of the dimension of the
    table. *)
Theorem Init_postcondition (bandwidth : R) (center : Vector.t)
  (sea : SeriesExpansionAux) :
  (get_order (Init_with_center bandwidth center sea) = 0
   ∧ coeffs_ (Init_with_center bandwidth center sea)
     = replicate (Z.to_nat (get_max_total_num_coeffs sea)) 0%R)
  ∧ (get_order (Init bandwidth sea) = 0
     ∧ coeffs_ (Init bandwidth sea)
       = replicate (Z.to_nat (get_max_total_num_coeffs sea)) 0%R
     ∧ center_ (Init bandwidth sea)
       = replicate (Z.to_nat (get_dimension sea)) 0%R).
Proof.
  unfold Init_with_center, Init, get_order, Vector.SetZero, Vector.Init.
  simpl. rewrite length_replicate. done.
Qed.

End Initialization.

(** ** The order never decreases *)

Section OrderMonotone.

Context {K : Type} `{Kernel K} `{KernelDerivative}.

Implicit Types (e : LocalExpansion K) (σ : list (LocalExpansion K)).

Lemma orders_grow_refl σ : orders_grow σ σ.
Proof. intros obj e He. by exists e. Qed.

Lemma orders_grow_trans σ1 σ2 σ3 :
  orders_grow σ1 σ2 → orders_grow σ2 σ3 → orders_grow σ1 σ3.
Proof.
  intros H12 H23 obj e He.
  destruct (H12 obj e He) as (e2 & He2 & Hle2).
  destruct (H23 obj e2 He2) as (e3 & He3 & Hle3).
  exists e3. split; [done | lia].
Qed.

Lemma orders_grow_insert σ obj e e' :
  σ !! obj = Some e → get_order e ≤ get_order e' →
  orders_grow σ (<[obj := e']> σ).
Proof.
  intros He Hle other e0 He0.
  destruct (decide (obj = other)) as [<- | Hne].
  - exists e'. rewrite list_lookup_insert_eq by by eapply lookup_lt_Some.
    split; [done |]. by replace e0 with e by congruence.
  - exists e0. by rewrite list_lookup_insert_ne.
Qed.

Lemma AccumulateCoeffs_order data weights begin end_ order e e' :
  AccumulateCoeffs data weights begin end_ order e = Some e' →
  get_order e' = Z.max (get_order e) order.
Proof.
  unfold AccumulateCoeffs, get_order.
  destruct (for_loop _ _ _) as [coeffs|]; simpl; [| done].
  intros [= <-]. destruct (Z.gtb_spec order (order_ e)); simpl; lia.
Qed.

Lemma TranslateFromFarField_order se e e' :
  TranslateFromFarField se e = Some e' →
  get_order e' = Z.max (get_order e) (ff_order se).
Proof.
  unfold TranslateFromFarField, get_order.
  destruct (scaled_difference _ _ _ _) as [cent_diff|]; simpl; [| done].
  destruct (mapM _ _) as [arrtmp|]; simpl; [| done].
  destruct (for_loop _ _ _) as [coeffs|]; simpl; [| done].
  intros [= <-]. destruct (Z.gtb_spec (ff_order se) (order_ e)); simpl; lia.
Qed.

Lemma translate_index_orders this se total_num_coeffs center_diff j σ σ' :
  translate_index this se total_num_coeffs center_diff j σ = Some σ' →
  orders_grow σ σ'.
Proof.
  unfold translate_index.
  destruct (σ !! this) as [me|]; simpl; [| done].
  destruct (at_index _ j) as [upper|]; simpl; [| done].
  destruct (upper_sums _ _ _ _ _ _ _) as [sums|]; simpl; [| done].
  destruct (σ !! se) as [dest|] eqn:Hdest; simpl; [| done].
  destruct (Vector.add_to _ _ _) as [new_coeffs|]; simpl; [| done].
  intros [= <-]. by eapply orders_grow_insert.
Qed.

Lemma TranslateToLocal_orders this se σ σ' :
  TranslateToLocal this se σ = Some σ' → orders_grow σ σ'.
Proof.
  unfold TranslateToLocal.
  destruct (σ !! this) as [me|]; simpl; [| done].
  destruct (σ !! se) as [dest|] eqn:Hdest; simpl; [| done].
  destruct (scaled_difference _ _ _ _) as [center_diff|]; simpl; [| done].
  intros Hloop.
  eapply orders_grow_trans;
    [| eapply (for_loop_preorder orders_grow);
       [apply orders_grow_refl | apply orders_grow_trans
       | apply translate_index_orders | exact Hloop]].
  destruct (Z.ltb_spec (get_order dest) (order_ me)).
  - eapply orders_grow_insert; [done | simpl; unfold get_order in *; lia].
  - apply orders_grow_refl.
Qed.

Lemma exec_orders c σ σ' : exec c σ = Some σ' → orders_grow σ σ'.
Proof.
  destruct c as [obj data weights begin end_ order | obj far | this se];
    simpl; [| | apply TranslateToLocal_orders].
  - destruct (σ !! obj) as [e|] eqn:He; simpl; [| done].
    destruct (AccumulateCoeffs _ _ _ _ _ _) as [e'|] eqn:Hacc; simpl;
      [| done].
    intros [= <-]. eapply orders_grow_insert; [done |].
    rewrite (AccumulateCoeffs_order _ _ _ _ _ _ _ Hacc). lia.
  - destruct (σ !! obj) as [e|] eqn:He; simpl; [| done].
    destruct (TranslateFromFarField _ _) as [e'|] eqn:Htr; simpl; [| done].
    intros [= <-]. eapply orders_grow_insert; [done |].
    rewrite (TranslateFromFarField_order _ _ _ Htr). lia.
Qed.

(** C1. Along every sequence of calls of [AccumulateCoeffs],
    [TranslateFromFarField] and [TranslateToLocal] on the expansions of a
    store, each expansion, be it the receiver or the argument of a
    translation, keeps an order that is greater than or equal to the order
    it had before; a single call is the sequence of length one. *)
Theorem order_non_decreasing (calls : list call) σ σ' obj e :
  run calls σ = Some σ' →
  σ !! obj = Some e →
  ∃ e', σ' !! obj = Some e' ∧ get_order e ≤ get_order e'.
Proof.
  intros Hrun. revert obj e.
  change (orders_grow σ σ').
  eapply (for_loop_preorder orders_grow);
    [apply orders_grow_refl | apply orders_grow_trans | apply exec_orders
    | exact Hrun].
Qed.

End OrderMonotone.

(** ** Evaluation at order 0 *)

Section Evaluation.

Context {K : Type} `{Kernel K} `{KernelDerivative}.

Implicit Types (e : LocalExpansion K).

Lemma scaled_difference_is_Some (a b : Z → option R) dim factor :
  (∀ d, 0 ≤ d < dim → is_Some (a d) ∧ is_Some (b d)) →
  is_Some (scaled_difference a b dim factor).
Proof.
  intros Hread. unfold scaled_difference.
  apply mapM_is_Some, list.Forall_forall. intros d Hd.
  apply elem_of_seqZ in Hd. simpl.
  destruct (Hread d) as [[x ->] [y ->]]; [lia |]. by eexists.
Qed.

(** The loop that clears [heads] leaves the zeros that the model of
    allocation has put there. *)
Lemma clear_heads (n : nat) (range : list Z) :
  Forall (λ i, 0 ≤ i < Z.of_nat n) range →
  for_loop (λ i heads, set_index heads i 0) range (replicate n 0)
  = Some (replicate n 0).
Proof.
  induction 1 as [|i range Hi _ IH]; simpl; [done |].
  replace (set_index (replicate n 0) i 0) with (Some (replicate n 0)).
  - exact IH.
  - symmetry. apply set_index_Some. rewrite length_replicate.
    split; [lia |]. by rewrite insert_replicate.
Qed.

(** C7. For an expansion of order 0, over a table that has one
    coefficient at order 0, [EvaluateField] returns the zero-order
    coefficient whatever the query point is, given as a vector or as a row
    of a matrix. *)
Theorem EvaluateField_order_zero (data : option Matrix.t) (row_num : Z)
  (x_q : option Vector.t) e (c : R) :
  get_order e = 0 →
  get_total_num_coeffs (sea_ e) 0 = 1 →
  Vector.get (coeffs_ e) 0 = Some c →
  0 ≤ get_dimension (sea_ e) →
  (∀ d, 0 ≤ d < get_dimension (sea_ e) →
     is_Some (query_coordinate data row_num x_q d)
     ∧ is_Some (Vector.get (center_ e) d)) →
  EvaluateField data row_num x_q e = Some c.
Proof.
  unfold get_order. intros Horder Htotal Hc Hdim Hread.
  unfold EvaluateField. rewrite Horder, Htotal.
  destruct (scaled_difference_is_Some _ _ _
              (BandwidthFactor (bandwidth_sq e)) Hread) as [x ->].
  simpl. rewrite clear_heads.
  2:{ apply list.Forall_forall. intros i Hi. apply elem_of_seqZ in Hi. lia. }
  simpl.
  destruct (set_index (replicate (Z.to_nat (get_dimension (sea_ e) + 1)) 0)
              (get_dimension (sea_ e)) MAXINT) as [heads|] eqn:Hheads.
  2:{ exfalso. apply eq_None_not_Some in Hheads. apply Hheads.
      eexists. apply set_index_Some. rewrite length_replicate.
      split; [lia | done]. }
  simpl. change (Z.of_nat 0 + 0) with 0. rewrite Hc. simpl. f_equal. lra.
Qed.

End Evaluation.

Section EvaluationWitness.

Import Gaussian.

Lemma EvaluateField_order_zero_witness :
  EvaluateField None (-1) (Some [3%R]) (expansion 0 [5; 0; 0]%R)
  = Some 5%R.
Proof.
  apply (EvaluateField_order_zero None (-1) (Some [3%R])
           (expansion 0 [5; 0; 0]%R) 5%R).
  - reflexivity.
  - reflexivity.
  - reflexivity.
  - simpl. lia.
  - simpl. intros d Hd. assert (d = 0) as -> by lia.
    split; by eexists.
Defined.

End EvaluationWitness.

(** ** Loops that add into a vector *)

Section AddLoops.

Implicit Types (v : Vector.t) (f g : Z → option R) (i j : Z).

Lemma insert_as_alter v (n : nat) (h : R → R) old :
  v !! n = Some old → <[n := h old]> v = alter h n v.
Proof.
  intros Hold. apply list_eq. intros k.
  destruct (decide (n = k)) as [<- | Hne].
  - rewrite list_lookup_insert_eq by by eapply lookup_lt_Some.
    by rewrite list_lookup_alter_eq, Hold.
  - by rewrite list_lookup_insert_ne, list_lookup_alter_ne.
Qed.

(** [v[j] += x] is defined inside the bounds, where it alters one entry. *)
Lemma add_to_alter v j x :
  Vector.add_to v j x
  = if bool_decide (0 ≤ j < Z.of_nat (length v))
    then Some (alter (λ old, old + x)%R (Z.to_nat j) v) else None.
Proof.
  unfold Vector.add_to, Vector.get, Vector.set.
  case_bool_decide as Hj.
  - destruct (proj2 (at_index_is_Some v j) Hj) as [old Hold].
    rewrite Hold. simpl. apply set_index_Some. split; [done |].
    apply at_index_Some in Hold as [_ Hold].
    by rewrite (insert_as_alter v _ (λ old, old + x)%R old).
  - destruct (at_index v j) as [old|] eqn:Hold; [| done].
    destruct Hj. apply at_index_is_Some. by eexists.
Qed.

Lemma add_to_length v j x v' :
  Vector.add_to v j x = Some v' → length v' = length v.
Proof.
  rewrite add_to_alter. case_bool_decide; [| done].
  intros [= <-]. apply length_alter.
Qed.

Lemma add_to_same v j x v' :
  Vector.add_to v j x = Some v' →
  ∃ old, Vector.get v j = Some old ∧ Vector.get v' j = Some (old + x)%R.
Proof.
  rewrite add_to_alter. case_bool_decide as Hj; [| done].
  intros [= <-].
  destruct (proj2 (at_index_is_Some v j) Hj) as [old Hold].
  exists old. split; [done |]. unfold Vector.get in *.
  apply at_index_Some in Hold as [? Hold]. apply at_index_Some.
  split; [done |]. by rewrite list_lookup_alter_eq, Hold.
Qed.

Lemma add_to_other v j x v' i :
  Vector.add_to v j x = Some v' → i ≠ j → Vector.get v' i = Vector.get v i.
Proof.
  rewrite add_to_alter. case_bool_decide as Hj; [| done].
  intros [= <-] Hne. unfold Vector.get, at_index.
  destruct (Z.ltb_spec i 0); [done |].
  apply list_lookup_alter_ne. lia.
Qed.

Lemma add_to_commute i j x y :
  turns_commute (λ v, Vector.add_to v i x) (λ v, Vector.add_to v j y).
Proof.
  intros v. rewrite (add_to_alter v i), (add_to_alter v j).
  do 2 case_bool_decide; simpl; rewrite ?add_to_alter, ?length_alter;
    repeat case_bool_decide; try done.
  f_equal. rewrite list_alter_alter.
  case_decide as Heq; [| done].
  rewrite <- Heq, list_alter_alter_eq.
  apply list_alter_ext; [| done]. intros old _. simpl. lra.
Qed.

Lemma add_terms_commute f g i j :
  turns_commute (add_terms f i) (add_terms g j).
Proof.
  intros v. unfold add_terms.
  destruct (f i) as [x|], (g j) as [y|]; simpl.
  - apply (add_to_commute i j x y v).
  - by destruct (Vector.add_to v i x).
  - by destruct (Vector.add_to v j y).
  - done.
Qed.

Lemma turns_commute_sym {S : Type} (t1 t2 : S → option S) :
  turns_commute t1 t2 → turns_commute t2 t1.
Proof. intros Hc s. symmetry. apply Hc. Qed.

Lemma add_terms_loops_commute f g (range1 range2 : list Z) :
  turns_commute (for_loop (add_terms f) range1)
    (for_loop (add_terms g) range2).
Proof.
  apply turns_commute_loop_r. intros j.
  apply turns_commute_sym, turns_commute_loop_r. intros i.
  apply add_terms_commute.
Qed.

(** After a loop of additions over distinct indices, each index of the range
    holds its old entry plus its term and every other entry is as before. *)
Lemma add_terms_loop f (range : list Z) :
  NoDup range →
  ∀ v v', for_loop (add_terms f) range v = Some v' →
    length v' = length v
    ∧ (∀ j, j ∈ range →
         ∃ old x, Vector.get v j = Some old ∧ f j = Some x
                  ∧ Vector.get v' j = Some (old + x)%R)
    ∧ (∀ j, j ∉ range → Vector.get v' j = Vector.get v j).
Proof.
  induction 1 as [|i range Hi _ IH]; intros v v'; simpl.
  - intros [= <-]. split; [done |]. split; [| done].
    intros j Hj. by apply elem_of_nil in Hj.
  - destruct (add_terms f i v) as [v1|] eqn:Hadd; simpl; [| done].
    unfold add_terms in Hadd.
    destruct (f i) as [x|] eqn:Hfi; simpl in Hadd; [| done].
    intros Hloop. destruct (IH v1 v' Hloop) as (Hlen & Hin & Hout).
    split; [by rewrite Hlen; eapply add_to_length |]. split.
    + intros j Hj. apply elem_of_cons in Hj as [-> | Hj].
      * destruct (add_to_same _ _ _ _ Hadd) as (old & Hold & Hnew).
        exists old, x. split; [done |]. split; [done |].
        by rewrite Hout.
      * destruct (Hin j Hj) as (old & y & Hold & Hfj & Hnew).
        exists old, y. split; [| done].
        rewrite <- Hold. symmetry. eapply add_to_other; [done |].
        intros ->. done.
    + intros j Hj. apply not_elem_of_cons in Hj as [Hne Hj].
      rewrite Hout by done. by eapply add_to_other.
Qed.

End AddLoops.

(** ** Accumulation does not depend on the order of the points *)

Section Accumulation.

Context {K : Type} `{Kernel K} `{KernelDerivative}.

Implicit Types (e : LocalExpansion K) (data : Matrix.t)
  (weights coeffs : Vector.t).

Lemma scaled_difference_ext (a a' b b' : Z → option R) dim factor :
  (∀ d, a d = a' d) → (∀ d, b d = b' d) →
  scaled_difference a b dim factor = scaled_difference a' b' dim factor.
Proof.
  intros Ha Hb. unfold scaled_difference. apply mapM_ext.
  intros d. by rewrite Ha, Hb.
Qed.

(** The turn for the point [r] is a loop of additions of its terms. *)
Lemma accumulate_point_terms e data weights order r coeffs :
  accumulate_point e data weights order r coeffs
  = scaled_difference (Vector.get (center_ e)) (λ d, Matrix.get data d r)
      (get_dimension (sea_ e)) (BandwidthFactor (bandwidth_sq e))
    ≫= λ x, for_loop (add_terms (point_term e weights order r x))
              (seqZ 0 (get_total_num_coeffs (sea_ e) order)) coeffs.
Proof.
  unfold accumulate_point.
  destruct (scaled_difference _ _ _ _) as [x|]; simpl; [| done].
  apply for_loop_ext. intros j v.
  unfold add_point_terms, add_terms, point_term.
  destruct (Vector.get (get_neg_inv_multiindex_factorials (sea_ e)) j)
    as [n|]; simpl; [| done].
  destruct (Vector.get weights r) as [w|]; simpl; [| done].
  by destruct (Vector.get _ j) as [a|].
Qed.

(** The turn reads the point and its weight only. *)
Lemma accumulate_point_weighted e data weights order r coeffs :
  accumulate_point e data weights order r coeffs
  = accumulate_weighted_point e order
      (at_index data r, Vector.get weights r) coeffs.
Proof.
  unfold accumulate_weighted_point. rewrite !accumulate_point_terms. simpl.
  assert (Hx :
    scaled_difference (Vector.get (center_ e)) (λ d, Matrix.get data d r)
      (get_dimension (sea_ e)) (BandwidthFactor (bandwidth_sq e))
    = scaled_difference (Vector.get (center_ e))
        (λ d, Matrix.get (option_list (at_index data r)) d 0)
        (get_dimension (sea_ e)) (BandwidthFactor (bandwidth_sq e))).
  { apply scaled_difference_ext; [done |].
    intros d. unfold Matrix.get. by destruct (at_index data r). }
  rewrite <- Hx.
  destruct (scaled_difference _ _ _ _) as [x|]; simpl; [| done].
  apply for_loop_ext. intros j v. unfold add_terms, point_term.
  destruct (Vector.get (get_neg_inv_multiindex_factorials (sea_ e)) j)
    as [n|]; simpl; [| done].
  by destruct (Vector.get weights r) as [w|].
Qed.

(** The turns of two points commute, whatever the data sets and the orders
    that they are accumulated with. *)
Lemma accumulate_point_commute e data1 weights1 order1 r1
  data2 weights2 order2 r2 :
  turns_commute (accumulate_point e data1 weights1 order1 r1)
    (accumulate_point e data2 weights2 order2 r2).
Proof.
  eapply turns_commute_ext;
    [intros v; apply accumulate_point_terms
    | intros v; apply accumulate_point_terms |].
  apply (turns_commute_guard _ _
           (λ x, for_loop (add_terms (point_term e weights1 order1 r1 x)) _)
           (λ x, for_loop (add_terms (point_term e weights2 order2 r2 x)) _)).
  intros x1 x2. apply add_terms_loops_commute.
Qed.

Lemma accumulate_loop_commute e data1 weights1 order1 (range1 : list Z)
  data2 weights2 order2 (range2 : list Z) :
  turns_commute
    (for_loop (accumulate_point e data1 weights1 order1) range1)
    (for_loop (accumulate_point e data2 weights2 order2) range2).
Proof.
  apply turns_commute_loop_r. intros r2.
  apply turns_commute_sym, turns_commute_loop_r. intros r1.
  apply accumulate_point_commute.
Qed.

(** The call as the loop over its points followed by the update of the
    object. *)
Lemma AccumulateCoeffs_loop data weights begin end_ order e :
  AccumulateCoeffs data weights begin end_ order e
  = for_loop (accumulate_point e data weights order)
      (seqZ begin (end_ - begin)) (coeffs_ e)
    ≫= λ coeffs,
         Some (mkLocalExpansion (kernel_ e) (center_ e) coeffs
                 (Z.max (order_ e) order) (sea_ e)).
Proof.
  unfold AccumulateCoeffs.
  destruct (Z.gtb_spec order (order_ e)); simpl;
    change (accumulate_point (set_order order e))
      with (accumulate_point e) || idtac;
    destruct (for_loop _ _ _); simpl; [| done | | done];
    unfold set_coeffs; simpl; do 2 f_equal; lia.
Qed.

(** C8. [AccumulateCoeffs] is invariant under permutation, in exact
    arithmetic: two calls that select the same multiset of weighted points,
    from whatever data sets and ranges and in whatever order, give the same
    expansion, coefficient for coefficient; and two calls, each over a range
    of its own, give the same expansion in either order.  Each point adds a
    term of its own that does not depend on the other points. *)
Theorem AccumulateCoeffs_permutation e order
  data1 weights1 begin1 end1 data2 weights2 begin2 end2 :
  (selected_points data1 weights1 begin1 end1
   ≡ₚ selected_points data2 weights2 begin2 end2 →
   AccumulateCoeffs data1 weights1 begin1 end1 order e
   = AccumulateCoeffs data2 weights2 begin2 end2 order e)
  ∧ (AccumulateCoeffs data1 weights1 begin1 end1 order e
       ≫= AccumulateCoeffs data2 weights2 begin2 end2 order
     = AccumulateCoeffs data2 weights2 begin2 end2 order e
         ≫= AccumulateCoeffs data1 weights1 begin1 end1 order).
Proof.
  split.
  - intros Hperm. rewrite !AccumulateCoeffs_loop. f_equal.
    rewrite (for_loop_ext _ _ _ _
               (accumulate_point_weighted e data1 weights1 order)).
    rewrite (for_loop_ext _ _ _ _
               (accumulate_point_weighted e data2 weights2 order)).
    rewrite <- !(for_loop_fmap
                  (λ r, (at_index _ r, Vector.get _ r))
                  (accumulate_weighted_point e order)).
    apply for_loop_Permutation; [| exact Hperm].
    intros point1 point2. apply accumulate_point_commute.
  - rewrite !AccumulateCoeffs_loop.
    pose proof (accumulate_loop_commute e data1 weights1 order
                  (seqZ begin1 (end1 - begin1)) data2 weights2 order
                  (seqZ begin2 (end2 - begin2)) (coeffs_ e)) as Hc.
    destruct (for_loop (accumulate_point e data1 weights1 order) _ _)
      as [v1|],
      (for_loop (accumulate_point e data2 weights2 order) _ _) as [v2|];
      simpl in *; rewrite ?AccumulateCoeffs_loop; simpl;
      change (accumulate_point (mkLocalExpansion _ _ ?c ?o _))
        with (accumulate_point e) || idtac.
    + rewrite <- Hc. destruct (for_loop _ _ v1); simpl; [| done].
      do 2 f_equal; lia.
    + by rewrite Hc.
    + by rewrite <- Hc.
    + done.
Qed.

End Accumulation.

(** ** Translation from a far-field expansion *)

Section FarField.

Context {K : Type} `{Kernel K} `{KernelDerivative}.

Implicit Types (e : LocalExpansion K) (se : FarFieldExpansion).

Lemma split_add_sum (acc : R * R) (prod : R) :
  ((split_add acc prod).1 + (split_add acc prod).2
   = acc.1 + acc.2 + prod)%R.
Proof. unfold split_add. destruct (Rgt_dec prod 0); simpl; lra. Qed.

(** The two accumulators together hold the plain sum of the products. *)
Lemma far_field_sums_products sea derivative_map far_coeffs j
  (range : list Z) :
  ∀ acc s,
    for_loop (far_field_term sea derivative_map far_coeffs j) range acc
    = Some s →
    ∃ products,
      mapM (λ k, beta_plus_alpha ←
                   add_multiindices (get_dimension sea)
                     (get_multiindex sea j) (get_multiindex sea k);
                 far_coeff ← Vector.get far_coeffs k;
                 Some (far_coeff
                       * ComputePartialDerivative derivative_map
                           beta_plus_alpha)%R)
        range = Some products
      ∧ (s.1 + s.2 = acc.1 + acc.2 + Rsum products)%R.
Proof.
  induction range as [|k range IH]; intros acc s Hloop; simpl in Hloop.
  - injection Hloop as <-. exists []. split; [done |]. simpl. lra.
  - destruct (far_field_term sea derivative_map far_coeffs j k acc)
      as [acc1|] eqn:Hterm; simpl in Hloop; [| done].
    unfold far_field_term in Hterm.
    destruct (add_multiindices _ _ _) as [beta_plus_alpha|] eqn:Hsum_index;
      simpl in Hterm; [| done].
    destruct (Vector.get far_coeffs k) as [far_coeff|] eqn:Hfar;
      simpl in Hterm; [| done].
    injection Hterm as <-.
    destruct (IH _ _ Hloop) as (products & Hproducts & Hsum).
    exists ((far_coeff
             * ComputePartialDerivative derivative_map beta_plus_alpha)%R
            :: products).
    split.
    + apply mapM_Some. constructor; [| by apply mapM_Some].
      by rewrite Hsum_index; simpl; rewrite Hfar.
    + simpl. rewrite Hsum, split_add_sum. lra.
Qed.

(** The coefficients after the translation, position by position. *)
Lemma TranslateFromFarField_coeffs se e e' :
  TranslateFromFarField se e = Some e' →
  length (coeffs_ e') = length (coeffs_ e)
  ∧ (∀ j, 0 ≤ j < get_total_num_coeffs (sea_ e) (ff_order se) →
       ∃ c x,
         Vector.get (coeffs_ e) j = Some c
         ∧ far_field_normalized_sum (sea_ e) (center_ e)
             (Z.max (order_ e) (ff_order se)) se j = Some x
         ∧ Vector.get (coeffs_ e') j = Some (c + x)%R)
  ∧ (∀ j, ¬ (0 ≤ j < get_total_num_coeffs (sea_ e) (ff_order se)) →
       Vector.get (coeffs_ e') j = Vector.get (coeffs_ e) j).
Proof.
  unfold TranslateFromFarField, far_field_normalized_sum,
    far_field_derivative_map, far_field_products.
  set (e1 := if ff_order se >? order_ e then set_order (ff_order se) e else e).
  assert (Hsea : sea_ e1 = sea_ e) by (unfold e1; by destruct (_ >? _)).
  assert (Hcenter : center_ e1 = center_ e) by (unfold e1; by destruct (_ >? _)).
  assert (Hcoeffs : coeffs_ e1 = coeffs_ e) by (unfold e1; by destruct (_ >? _)).
  assert (Horder : order_ e1 = Z.max (order_ e) (ff_order se)).
  { unfold e1. destruct (Z.gtb_spec (ff_order se) (order_ e)); simpl; lia. }
  rewrite Hsea, Hcenter, Hcoeffs, Horder.
  destruct (scaled_difference _ _ _ _) as [cent_diff|]; simpl; [| done].
  destruct (mapM _ _) as [arrtmp|] eqn:Harrtmp; simpl; [| done].
  destruct (for_loop _ _ _) as [coeffs|] eqn:Hloop; simpl; [| done].
  intros [= <-]. simpl.
  rewrite (for_loop_ext _
             (add_terms (λ j, s ← at_index arrtmp j;
                              n ← Vector.get
                                    (get_neg_inv_multiindex_factorials
                                       (sea_ e)) j;
                              Some ((s.1 + s.2) * n)%R))) in Hloop.
  2:{ intros j v. unfold add_far_field_sum, add_terms.
      destruct (at_index arrtmp j); simpl; [| done].
      by destruct (Vector.get _ j). }
  apply add_terms_loop in Hloop as (Hlen & Hin & Hout);
    [| apply NoDup_seqZ].
  split; [done |]. split.
  - intros j Hj.
    destruct (Hin j) as (c & x & Hc & Hx & Hnew); [apply elem_of_seqZ; lia |].
    exists c, x. split; [done |]. split; [| done].
    destruct (at_index arrtmp j) as [s|] eqn:Hs; simpl in Hx; [| done].
    apply at_index_Some in Hs as [_ Hs].
    apply mapM_Some in Harrtmp.
    destruct (Forall2_lookup_r _ _ _ _ _ Harrtmp Hs) as (j' & Hj' & Hsums).
    apply lookup_seqZ in Hj' as [-> _].
    replace (0 + Z.of_nat (Z.to_nat j)) with j in Hsums by lia.
    apply far_field_sums_products in Hsums as (products & -> & Hsum).
    simpl.
    destruct (Vector.get (get_neg_inv_multiindex_factorials (sea_ e)) j)
      as [n|]; simpl in *; [| done].
    injection Hx as <-. f_equal. rewrite Hsum. simpl. lra.
  - intros j Hj. apply Hout. rewrite elem_of_seqZ. lia.
Qed.

End FarField.

(** ** Translation to another local expansion *)

Section LocalToLocal.

Context {K : Type} `{Kernel K} `{KernelDerivative}.

Implicit Types (me dest : LocalExpansion K) (σ : list (LocalExpansion K)).

(** The term that the receiver adds at [j]. *)
Local Abbreviation upper_term me total_num_coeffs center_diff :=
  (λ j, upper_mappings_for_alpha ←
          at_index (get_upper_mapping_index (sea_ me)) j;
        sums ← upper_sums (sea_ me) total_num_coeffs center_diff
                 (coeffs_ me) j upper_mappings_for_alpha (0%R, 0%R);
        Some (sums.1 + sums.2)%R).

(** With a destination that is another object than the receiver, a turn of
    the j-loop is an addition into the coefficients of the destination. *)
Lemma translate_index_turn this se total_num_coeffs center_diff j σ me dest :
  this ≠ se → σ !! this = Some me → σ !! se = Some dest →
  translate_index this se total_num_coeffs center_diff j σ
  = add_terms (upper_term me total_num_coeffs center_diff) j (coeffs_ dest)
    ≫= λ coeffs, Some (<[se := set_coeffs coeffs dest]> σ).
Proof.
  intros Hne Hme Hdest. unfold translate_index, add_terms.
  rewrite Hme. simpl.
  destruct (at_index _ j) as [upper|]; simpl; [| done].
  destruct (upper_sums _ _ _ _ _ _ _) as [sums|]; simpl; [| done].
  by rewrite Hdest.
Qed.

Lemma translate_index_loop this se total_num_coeffs center_diff
  (range : list Z) :
  this ≠ se →
  ∀ σ me dest, σ !! this = Some me → σ !! se = Some dest →
    for_loop (translate_index this se total_num_coeffs center_diff) range σ
    = for_loop (add_terms (upper_term me total_num_coeffs center_diff))
        range (coeffs_ dest)
      ≫= λ coeffs, Some (<[se := set_coeffs coeffs dest]> σ).
Proof.
  intros Hne. induction range as [|j range IH]; intros σ me dest Hme Hdest.
  - simpl. f_equal. symmetry. apply list_insert_id.
    rewrite Hdest. by destruct dest.
  - simpl for_loop.
    rewrite (translate_index_turn _ _ _ _ _ _ me dest) by done.
    destruct (add_terms _ j (coeffs_ dest)) as [coeffs1|]; simpl; [| done].
    rewrite (IH _ me (set_coeffs coeffs1 dest)).
    + simpl. destruct (for_loop _ range coeffs1); simpl; [| done].
      by rewrite list_insert_insert_eq.
    + by rewrite list_lookup_insert_ne.
    + apply list_lookup_insert_eq. by eapply lookup_lt_Some.
Qed.

(** The destination after the translation, position by position. *)
Lemma TranslateToLocal_coeffs this se σ σ' me dest :
  TranslateToLocal this se σ = Some σ' →
  this ≠ se → σ !! this = Some me → σ !! se = Some dest →
  ∃ dest',
    σ' = <[se := dest']> σ
    ∧ center_ dest' = center_ dest
    ∧ length (coeffs_ dest') = length (coeffs_ dest)
    ∧ (∀ j, 0 ≤ j < get_total_num_coeffs (sea_ me) (order_ me) →
         ∃ c x,
           Vector.get (coeffs_ dest) j = Some c
           ∧ local_sum me (center_ dest) j = Some x
           ∧ Vector.get (coeffs_ dest') j = Some (c + x)%R)
    ∧ (∀ j, ¬ (0 ≤ j < get_total_num_coeffs (sea_ me) (order_ me)) →
         Vector.get (coeffs_ dest') j = Vector.get (coeffs_ dest) j).
Proof.
  intros Hrun Hne Hme Hdest. unfold TranslateToLocal in Hrun.
  rewrite Hme, Hdest in Hrun. simpl in Hrun. unfold local_sum.
  destruct (scaled_difference _ _ _ _) as [center_diff|]; simpl in *;
    [| done].
  set (dest1 := if get_order dest <? order_ me
                then set_order (order_ me) dest else dest).
  assert (Hcenter : center_ dest1 = center_ dest)
    by (unfold dest1; by destruct (_ <? _)).
  assert (Hcoeffs : coeffs_ dest1 = coeffs_ dest)
    by (unfold dest1; by destruct (_ <? _)).
  assert (Hσ1 : (if get_order dest <? order_ me
                 then <[se := set_order (order_ me) dest]> σ else σ)
                = <[se := dest1]> σ).
  { unfold dest1. destruct (_ <? _); [done |].
    symmetry. by apply list_insert_id. }
  rewrite Hσ1 in Hrun.
  rewrite (translate_index_loop _ _ _ _ _ Hne _ me dest1) in Hrun.
  2:{ by rewrite list_lookup_insert_ne. }
  2:{ apply list_lookup_insert_eq. by eapply lookup_lt_Some. }
  rewrite Hcoeffs in Hrun.
  destruct (for_loop _ _ (coeffs_ dest)) as [coeffs|] eqn:Hloop;
    simpl in Hrun; [| done].
  injection Hrun as <-.
  apply add_terms_loop in Hloop as (Hlen & Hin & Hout);
    [| apply NoDup_seqZ].
  exists (set_coeffs coeffs dest1).
  split; [by rewrite list_insert_insert_eq |].
  split; [done |]. split; [done |]. split.
  - intros j Hj.
    destruct (Hin j) as (c & x & Hc & Hx & Hnew); [apply elem_of_seqZ; lia |].
    by exists c, x.
  - intros j Hj. apply Hout. rewrite elem_of_seqZ. lia.
Qed.

End LocalToLocal.

(** ** The operations in the concrete setting *)

Section Runs.

Import Gaussian.

(** Settles the tests of the sign of a product. *)
Ltac decide_R :=
  repeat match goal with
         | |- context [Rgt_dec ?a ?b] =>
             destruct (Rgt_dec a b); [try (exfalso; lra) | try (exfalso; lra)]
         end.

(** The two centers coincide: the scaled difference is 0, where the kernel
    is 1. *)
Ltac at_center :=
  replace ((0 - 0) / sqrt (2 * 1))%R with 0%R by (unfold Rdiv; lra);
  unfold far_field_sums, far_field_term, far_field_products,
    add_multiindices, add_point_terms; simpl;
  unfold partial_derivative, derivative_map, hermite, Matrix.get; simpl;
  replace (- 0 * 0)%R with 0%R by lra; rewrite ?exp_0.

Lemma run_far_field :
  TranslateFromFarField far_source (expansion 2 [0; 0; 0]%R)
  = Some (expansion 2 [1; 0; 0]%R).
Proof.
  unfold TranslateFromFarField, scaled_difference. simpl. at_center.
  unfold split_add. decide_R. simpl.
  unfold expansion, set_coeffs. simpl. repeat f_equal. lra.
Qed.

Lemma run_normalized_sum :
  far_field_normalized_sum table [0%R] 2 far_source 2 = Some (-1)%R.
Proof.
  unfold far_field_normalized_sum, far_field_derivative_map,
    scaled_difference. simpl. at_center.
  unfold Rsum. simpl. f_equal. lra.
Qed.

Lemma run_local_to_local :
  TranslateToLocal 1 0 two_expansions
  = Some [expansion 1 [1; 2; 0]%R; expansion 1 [1; 2; 0]%R].
Proof.
  unfold TranslateToLocal, scaled_difference. simpl.
  unfold translate_index. simpl.
  unfold power_product. simpl. unfold split_add. decide_R. simpl.
  unfold expansion, set_coeffs, set_order. simpl.
  replace ((0 - 0) / sqrt (2 * (1 * 1)))%R with 0%R by (unfold Rdiv; lra).
  repeat f_equal; lra.
Qed.

Lemma run_far_field_again :
  TranslateFromFarField far_source (expansion 1 [1; 2; 0]%R)
  = Some (expansion 1 [2; 2; 0]%R).
Proof.
  unfold TranslateFromFarField, scaled_difference. simpl. at_center.
  unfold split_add. decide_R. simpl.
  unfold expansion, set_coeffs. simpl. repeat f_equal. lra.
Qed.

Lemma run_far_field_twice :
  TranslateFromFarField far_source (expansion 2 [1; 0; 0]%R)
  = Some (expansion 2 [2; 0; 0]%R).
Proof.
  unfold TranslateFromFarField, scaled_difference. simpl. at_center.
  unfold split_add. decide_R. simpl.
  unfold expansion, set_coeffs. simpl. repeat f_equal. lra.
Qed.

Lemma run_accumulate :
  AccumulateCoeffs [[0%R]] [1%R] 0 1 2 (expansion 1 [1; 2; 0]%R)
  = Some (expansion 2 [2; 2; -1]%R).
Proof.
  unfold AccumulateCoeffs, accumulate_point, scaled_difference. simpl.
  unfold bandwidth_sq. simpl.
  replace ((0 - 0) / sqrt (2 * (1 * 1)))%R with 0%R by (unfold Rdiv; lra).
  unfold add_point_terms. simpl.
  unfold partial_derivative, derivative_map, hermite, Matrix.get. simpl.
  replace (- 0 * 0)%R with 0%R by lra. rewrite exp_0.
  unfold expansion, set_coeffs, set_order. simpl. repeat f_equal; lra.
Qed.

Lemma run_calls :
  run [CallTranslateToLocal 1 0; CallTranslateFromFarField 0 far_source;
       CallAccumulateCoeffs 1 [[0%R]] [1%R] 0 1 2]
    two_expansions
  = Some [expansion 1 [2; 2; 0]%R; expansion 2 [2; 2; -1]%R].
Proof.
  unfold run. cbn [for_loop exec].
  rewrite run_local_to_local. cbn [mbind option_bind lookup list_lookup].
  rewrite run_far_field_again. cbn [mbind option_bind lookup list_lookup].
  simpl insert. cbn [mbind option_bind lookup list_lookup].
  rewrite run_accumulate. done.
Qed.

End Runs.

(** ** The properties of translation *)

Section TranslationProperties.

Context {K : Type} `{Kernel K} `{KernelDerivative}.

Implicit Types (e : LocalExpansion K) (se : FarFieldExpansion)
  (σ : list (LocalExpansion K)).

Lemma TranslateFromFarField_frame se e e' :
  TranslateFromFarField se e = Some e' →
  sea_ e' = sea_ e ∧ center_ e' = center_ e.
Proof.
  unfold TranslateFromFarField.
  destruct (scaled_difference _ _ _ _) as [cent_diff|]; simpl; [| done].
  destruct (mapM _ _) as [arrtmp|]; simpl; [| done].
  destruct (for_loop _ _ _) as [coeffs|]; simpl; [| done].
  intros [= <-]. by destruct (_ >? _).
Qed.

Lemma far_field_addition se e e' j c :
  TranslateFromFarField se e = Some e' →
  Vector.get (coeffs_ e) j = Some c →
  Vector.get (coeffs_ e') j
  = Some (c + far_field_contribution (sea_ e) (center_ e)
                (Z.max (order_ e) (ff_order se)) se j)%R.
Proof.
  intros Hrun Hc.
  destruct (TranslateFromFarField_coeffs se e e' Hrun) as (_ & Hin & Hout).
  unfold far_field_contribution. case_bool_decide as Hj.
  - destruct (Hin j Hj) as (c' & x & Hc' & -> & ->). simpl.
    by replace c' with c by congruence.
  - rewrite Hout, Hc by done. f_equal. lra.
Qed.

(** C2. Both translations only add into the coefficient buffer of the
    destination.  After [TranslateFromFarField] every coefficient of the
    destination is its value before the call plus a contribution that is
    made of the source, the two centers and the tables (and of the order
    that sizes the table of derivatives), and of no coefficient of the
    destination; after [TranslateToLocal] into another object the same holds
    with the contribution of the receiver; nothing is overwritten or zeroed,
    and two far-field sources translated in turn leave the sum of their
    contributions. *)
Theorem translations_additive :
  (∀ se e e' j c,
     TranslateFromFarField se e = Some e' →
     Vector.get (coeffs_ e) j = Some c →
     Vector.get (coeffs_ e') j
     = Some (c + far_field_contribution (sea_ e) (center_ e)
                   (Z.max (order_ e) (ff_order se)) se j)%R)
  ∧ (∀ (this to : nat) σ σ' me dest j c,
       TranslateToLocal this to σ = Some σ' →
       this ≠ to → σ !! this = Some me → σ !! to = Some dest →
       Vector.get (coeffs_ dest) j = Some c →
       ∃ dest',
         σ' !! to = Some dest'
         ∧ Vector.get (coeffs_ dest') j
           = Some (c + local_contribution me (center_ dest) j)%R)
  ∧ (∀ se1 se2 e e1 e2 j c,
       TranslateFromFarField se1 e = Some e1 →
       TranslateFromFarField se2 e1 = Some e2 →
       Vector.get (coeffs_ e) j = Some c →
       Vector.get (coeffs_ e2) j
       = Some (c
               + far_field_contribution (sea_ e) (center_ e)
                   (Z.max (order_ e) (ff_order se1)) se1 j
               + far_field_contribution (sea_ e) (center_ e)
                   (Z.max (Z.max (order_ e) (ff_order se1)) (ff_order se2))
                   se2 j)%R).
Proof.
  split; [exact far_field_addition |]. split.
  - intros this to σ σ' me dest j c Hrun Hne Hme Hdest Hc.
    destruct (TranslateToLocal_coeffs this to σ σ' me dest Hrun Hne Hme Hdest)
      as (dest' & -> & _ & _ & Hin & Hout).
    exists dest'.
    split; [apply list_lookup_insert_eq; by eapply lookup_lt_Some |].
    unfold local_contribution. case_bool_decide as Hj.
    + destruct (Hin j Hj) as (c' & x & Hc' & -> & ->). simpl.
      by replace c' with c by congruence.
    + rewrite Hout, Hc by done. f_equal. lra.
  - intros se1 se2 e e1 e2 j c Hrun1 Hrun2 Hc.
    pose proof (far_field_addition _ _ _ _ _ Hrun1 Hc) as Hc1.
    pose proof (far_field_addition _ _ _ _ _ Hrun2 Hc1) as Hc2.
    destruct (TranslateFromFarField_frame _ _ _ Hrun1) as [Hsea Hcenter].
    pose proof (TranslateFromFarField_order _ _ _ Hrun1) as Horder.
    unfold get_order in Horder.
    by rewrite Hsea, Hcenter, Horder in Hc2.
Qed.

(** C3, as amended.  [TranslateFromFarField] updates the destination
    multi-indices up to the number of coefficients of the order of the
    source: at each of them it adds the normalized sum, over every source
    multi-index, of the source coefficient times the partial derivative
    indexed by the component-wise sum of the two multi-indices; it leaves
    every other coefficient of the destination as it is, also when the order
    of the destination is the higher one. *)
Theorem TranslateFromFarField_updates se e e' :
  TranslateFromFarField se e = Some e' →
  get_order e' = Z.max (get_order e) (ff_order se)
  ∧ (∀ j, 0 ≤ j < get_total_num_coeffs (sea_ e) (ff_order se) →
       ∃ c x,
         Vector.get (coeffs_ e) j = Some c
         ∧ far_field_normalized_sum (sea_ e) (center_ e) (order_ e') se j
           = Some x
         ∧ Vector.get (coeffs_ e') j = Some (c + x)%R)
  ∧ (∀ j, ¬ (0 ≤ j < get_total_num_coeffs (sea_ e) (ff_order se)) →
       Vector.get (coeffs_ e') j = Vector.get (coeffs_ e) j).
Proof.
  intros Hrun.
  pose proof (TranslateFromFarField_order _ _ _ Hrun) as Horder.
  destruct (TranslateFromFarField_coeffs se e e' Hrun) as (_ & Hin & Hout).
  split; [done |]. split; [| done].
  unfold get_order in Horder. by rewrite Horder.
Qed.

End TranslationProperties.

(** The properties of translation and of accumulation at explicit inputs. *)

Section TranslationWitnesses.

Import Gaussian.

Lemma order_non_decreasing_witness :
  ∃ e', [expansion 1 [2; 2; 0]%R; expansion 2 [2; 2; -1]%R] !! 0%nat
        = Some e'
        ∧ get_order (expansion 0 [0; 0; 0]%R) ≤ get_order e'.
Proof.
  apply (order_non_decreasing
           [CallTranslateToLocal 1 0; CallTranslateFromFarField 0 far_source;
            CallAccumulateCoeffs 1 [[0%R]] [1%R] 0 1 2]
           two_expansions
           [expansion 1 [2; 2; 0]%R; expansion 2 [2; 2; -1]%R]
           0%nat (expansion 0 [0; 0; 0]%R)).
  - exact run_calls.
  - reflexivity.
Defined.

Lemma translations_additive_witness :
  Vector.get (coeffs_ (expansion 2 [1; 0; 0]%R)) 0
  = Some (0 + far_field_contribution table [0%R] (Z.max 2 0) far_source 0)%R
  ∧ (∃ dest',
       [expansion 1 [1; 2; 0]%R; expansion 1 [1; 2; 0]%R] !! 0%nat
       = Some dest'
       ∧ Vector.get (coeffs_ dest') 1
         = Some (0 + local_contribution (expansion 1 [1; 2; 0]%R) [0%R] 1)%R)
  ∧ Vector.get (coeffs_ (expansion 2 [2; 0; 0]%R)) 0
    = Some (0
            + far_field_contribution table [0%R] (Z.max 2 0) far_source 0
            + far_field_contribution table [0%R] (Z.max (Z.max 2 0) 0)
                far_source 0)%R.
Proof.
  split; [| split].
  - apply (proj1 translations_additive far_source
             (expansion 2 [0; 0; 0]%R) (expansion 2 [1; 0; 0]%R) 0 0%R).
    + exact run_far_field.
    + reflexivity.
  - apply (proj1 (proj2 translations_additive) 1%nat 0%nat two_expansions
             [expansion 1 [1; 2; 0]%R; expansion 1 [1; 2; 0]%R]
             (expansion 1 [1; 2; 0]%R) (expansion 0 [0; 0; 0]%R) 1 0%R).
    + exact run_local_to_local.
    + lia.
    + reflexivity.
    + reflexivity.
    + reflexivity.
  - apply (proj2 (proj2 translations_additive) far_source far_source
             (expansion 2 [0; 0; 0]%R) (expansion 2 [1; 0; 0]%R)
             (expansion 2 [2; 0; 0]%R) 0 0%R).
    + exact run_far_field.
    + exact run_far_field_twice.
    + reflexivity.
Defined.

(** C3, as it is stated, fails where the order of the destination is above
    the order of the source: the destination of order 2 has three
    coefficients, the source of order 0 has one, and the translation leaves
    the coefficient at position 2 at 0 although its normalized sum is -1. *)
Lemma far_field_leaves_higher_orders :
  TranslateFromFarField far_source (expansion 2 [0; 0; 0]%R)
  = Some (expansion 2 [1; 0; 0]%R)
  ∧ ¬ updates_up_to_destination_order far_source
        (expansion 2 [0; 0; 0]%R) (expansion 2 [1; 0; 0]%R).
Proof.
  split; [exact run_far_field |].
  intros Hclaim. destruct (Hclaim 2) as (c & x & Hc & Hx & Hnew).
  { simpl. lia. }
  simpl in Hx. rewrite run_normalized_sum in Hx.
  injection Hx as <-. injection Hc as <-. injection Hnew as Hnew. lra.
Qed.

Lemma TranslateFromFarField_updates_witness :
  get_order (expansion 2 [1; 0; 0]%R)
  = Z.max (get_order (expansion 2 [0; 0; 0]%R)) (ff_order far_source)
  ∧ (∀ j, 0 ≤ j < 1 →
       ∃ c x,
         Vector.get [0; 0; 0]%R j = Some c
         ∧ far_field_normalized_sum table [0%R] 2 far_source j = Some x
         ∧ Vector.get [1; 0; 0]%R j = Some (c + x)%R)
  ∧ (∀ j, ¬ (0 ≤ j < 1) →
       Vector.get [1; 0; 0]%R j = Vector.get [0; 0; 0]%R j).
Proof.
  apply (TranslateFromFarField_updates far_source
           (expansion 2 [0; 0; 0]%R) (expansion 2 [1; 0; 0]%R)).
  exact run_far_field.
Defined.

Lemma AccumulateCoeffs_permutation_witness :
  AccumulateCoeffs [[1%R]; [2%R]] [10; 20]%R 0 2 2
    (expansion 0 [0; 0; 0]%R)
  = AccumulateCoeffs [[2%R]; [1%R]] [20; 10]%R 0 2 2
      (expansion 0 [0; 0; 0]%R).
Proof.
  apply (proj1 (AccumulateCoeffs_permutation (expansion 0 [0; 0; 0]%R) 2
                  [[1%R]; [2%R]] [10; 20]%R 0 2
                  [[2%R]; [1%R]] [20; 10]%R 0 2)).
  apply perm_swap.
Defined.

End TranslationWitnesses.

(** * Further properties of the operations *)

(** ** Loops that are defined *)

Section DefinedLoops.

Context {S I : Type}.

(** A loop is defined when an invariant of the state makes every turn
    defined. *)
Lemma for_loop_is_Some (P : S → Prop) (body : I → S → option S)
  (range : list I) :
  (∀ i s, i ∈ range → P s → ∃ s', body i s = Some s' ∧ P s') →
  ∀ s, P s → ∃ s', for_loop body range s = Some s' ∧ P s'.
Proof.
  induction range as [|i range IH]; intros Hbody s Hs; simpl.
  - by exists s.
  - destruct (Hbody i s) as (s1 & -> & Hs1); [by left | done |]. simpl.
    apply IH; [| done]. intros i' s' Hi'. apply Hbody. by right.
Qed.

End DefinedLoops.

Section DefinedAdditions.

Implicit Types (v : Vector.t) (f : Z → option R).

Lemma add_terms_loop_is_Some f (range : list Z) v :
  (∀ j, j ∈ range → is_Some (f j) ∧ 0 ≤ j < Z.of_nat (length v)) →
  ∃ v', for_loop (add_terms f) range v = Some v' ∧ length v' = length v.
Proof.
  intros Hrange.
  destruct (for_loop_is_Some (λ v', length v' = length v) (add_terms f)
              range) with (s := v) as (v' & Hv' & Hlen); [| done | by exists v'].
  intros j v1 Hj Hlen. destruct (Hrange j Hj) as [[x Hx] Hbound].
  unfold add_terms. rewrite Hx. simpl. rewrite add_to_alter.
  rewrite bool_decide_eq_true_2 by (rewrite Hlen; lia).
  eexists. split; [done |]. by rewrite length_alter.
Qed.

(** A loop of additions that is defined has read every index of its range
    inside the vector. *)
Lemma add_terms_loop_bounds f (range : list Z) :
  ∀ v v', for_loop (add_terms f) range v = Some v' →
    ∀ j, j ∈ range → 0 ≤ j < Z.of_nat (length v).
Proof.
  induction range as [|i range IH]; intros v v' Hloop j Hj.
  - by apply elem_of_nil in Hj.
  - simpl in Hloop.
    destruct (add_terms f i v) as [v1|] eqn:Hturn; simpl in Hloop; [| done].
    unfold add_terms in Hturn.
    destruct (f i) as [x|]; simpl in Hturn; [| done].
    rewrite add_to_alter in Hturn. case_bool_decide as Hi; [| done].
    injection Hturn as <-.
    apply elem_of_cons in Hj as [-> | Hj]; [done |].
    rewrite <- (length_alter (λ old, old + x)%R v (Z.to_nat i)).
    by eapply IH.
Qed.

End DefinedAdditions.

(** ** Accumulation, further *)

Section AccumulationFurther.

Context {K : Type} `{Kernel K} `{KernelDerivative}.

Implicit Types (e : LocalExpansion K) (data : Matrix.t)
  (weights : Vector.t).

Lemma accumulate_loop_sum e data weights order (range : list Z) :
  ∀ v v',
    for_loop (accumulate_point e data weights order) range v = Some v' →
    length v' = length v
    ∧ (∀ j c, 0 ≤ j < get_total_num_coeffs (sea_ e) order →
         Vector.get v j = Some c →
         ∃ terms,
           mapM (λ r, x ← point_displacement e data r;
                      point_term e weights order r x j) range = Some terms
           ∧ Vector.get v' j = Some (c + Rsum terms)%R)
    ∧ (∀ j, ¬ (0 ≤ j < get_total_num_coeffs (sea_ e) order) →
         Vector.get v' j = Vector.get v j).
Proof.
  induction range as [|r range IH]; intros v v' Hloop; simpl in Hloop.
  - injection Hloop as <-. split; [done |]. split; [| done].
    intros j c _ Hc. exists []. split; [done |]. rewrite Hc. simpl.
    f_equal; lra.
  - destruct (accumulate_point e data weights order r v) as [v1|] eqn:Hturn;
      simpl in Hloop; [| done].
    rewrite accumulate_point_terms in Hturn.
    fold (point_displacement e data r) in Hturn.
    destruct (point_displacement e data r) as [x|] eqn:Hx;
      simpl in Hturn; [| done].
    apply add_terms_loop in Hturn as (Hlen1 & Hin1 & Hout1);
      [| apply NoDup_seqZ].
    destruct (IH v1 v' Hloop) as (Hlen & Hin & Hout).
    split; [congruence |]. split.
    + intros j c Hj Hc.
      destruct (Hin1 j) as (c' & t & Hc' & Ht & Hc1);
        [apply elem_of_seqZ; lia |].
      replace c' with c in * by congruence.
      destruct (Hin j _ Hj Hc1) as (terms & Hterms & Hnew).
      exists (t :: terms). split.
      * apply mapM_Some. constructor; [| by apply mapM_Some].
        by rewrite Hx.
      * rewrite Hnew. simpl. f_equal; lra.
    + intros j Hj. rewrite Hout by done. apply Hout1.
      rewrite elem_of_seqZ. lia.
Qed.

(** X1. [AccumulateCoeffs] adds to each coefficient below the count of the
    requested order the sum, over the points of the range, of the negated
    inverse factorial times the weight of the point times the partial
    derivative at the scaled displacement of the point; the coefficients
    from that count on are left as they are. *)
Theorem AccumulateCoeffs_sum data weights begin end_ order e e' :
  AccumulateCoeffs data weights begin end_ order e = Some e' →
  (∀ j c, 0 ≤ j < get_total_num_coeffs (sea_ e) order →
     Vector.get (coeffs_ e) j = Some c →
     ∃ terms,
       accumulated_terms e data weights begin end_ order j = Some terms
       ∧ Vector.get (coeffs_ e') j = Some (c + Rsum terms)%R)
  ∧ (∀ j, ¬ (0 ≤ j < get_total_num_coeffs (sea_ e) order) →
       Vector.get (coeffs_ e') j = Vector.get (coeffs_ e) j).
Proof.
  rewrite AccumulateCoeffs_loop.
  destruct (for_loop _ _ _) as [coeffs|] eqn:Hloop; simpl; [| done].
  intros [= <-]. simpl.
  by destruct (accumulate_loop_sum _ _ _ _ _ _ _ Hloop) as (_ & Hin & Hout).
Qed.

(** X2. [AccumulateCoeffs] has no effect beyond the coefficients and the
    order: kernel, center and table are those of before, the buffer keeps
    its length, and the order becomes the larger of the order of before and
    the requested one. *)
Theorem AccumulateCoeffs_frame data weights begin end_ order e e' :
  AccumulateCoeffs data weights begin end_ order e = Some e' →
  kernel_ e' = kernel_ e ∧ get_center e' = get_center e
  ∧ sea_ e' = sea_ e
  ∧ length (get_coeffs e') = length (get_coeffs e)
  ∧ get_order e' = Z.max (get_order e) order.
Proof.
  rewrite AccumulateCoeffs_loop.
  destruct (for_loop _ _ _) as [coeffs|] eqn:Hloop; simpl; [| done].
  intros [= <-]. unfold get_center, get_coeffs, get_order. simpl.
  by destruct (accumulate_loop_sum _ _ _ _ _ _ _ Hloop) as (-> & _ & _).
Qed.


(** X4. Accumulating a range in two calls, first [begin .. mid - 1] and then
    [mid .. end - 1], with the same order, gives what one call over
    [begin .. end - 1] gives, undefined cases included. *)
Theorem AccumulateCoeffs_split data weights begin mid end_ order e :
  begin ≤ mid ≤ end_ →
  AccumulateCoeffs data weights begin mid order e
    ≫= AccumulateCoeffs data weights mid end_ order
  = AccumulateCoeffs data weights begin end_ order e.
Proof.
  intros Hmid. rewrite !AccumulateCoeffs_loop.
  replace (end_ - begin) with ((mid - begin) + (end_ - mid)) by lia.
  rewrite seqZ_app, for_loop_app by lia.
  replace (begin + (mid - begin)) with mid by lia.
  destruct (for_loop _ (seqZ begin (mid - begin)) _) as [v1|]; simpl;
    [| done].
  rewrite AccumulateCoeffs_loop. simpl.
  change (accumulate_point (mkLocalExpansion _ _ v1 _ _))
    with (accumulate_point e).
  destruct (for_loop _ _ v1); simpl; [| done].
  do 2 f_equal; lia.
Qed.


(** X6. [AccumulateCoeffs] does not check the requested order against the
    buffer: with a range that is not empty and an order whose count of
    coefficients is above the length of the coefficient buffer, the loop
    leaves the buffer and the call has no defined result. *)
Theorem AccumulateCoeffs_beyond_buffer data weights begin end_ order e :
  begin < end_ →
  Z.of_nat (length (coeffs_ e)) < get_total_num_coeffs (sea_ e) order →
  AccumulateCoeffs data weights begin end_ order e = None.
Proof.
  intros Hrange Hbuffer. rewrite AccumulateCoeffs_loop.
  rewrite seqZ_cons by lia. simpl.
  destruct (accumulate_point e data weights order begin (coeffs_ e))
    as [v1|] eqn:Hturn; simpl; [| done].
  rewrite accumulate_point_terms in Hturn.
  destruct (scaled_difference _ _ _ _) as [x|]; simpl in Hturn; [| done].
  pose proof (add_terms_loop_bounds _ _ _ _ Hturn
                (Z.of_nat (length (coeffs_ e)))) as Hbound.
  rewrite elem_of_seqZ in Hbound. lia.
Qed.

End AccumulationFurther.

(** ** Evaluation, further *)

Section EvaluationFurther.

Context {K : Type} `{Kernel K} `{KernelDerivative}.

Implicit Types (e : LocalExpansion K) (coeffs tmp : Vector.t).

(** The evaluation is the dot product of the coefficients with monomials
    that are built without reading a coefficient. *)
Lemma EvaluateField_dot_product data row_num x_q e :
  EvaluateField data row_num x_q e
  = monomial_values data row_num x_q e
    ≫= λ tmp, dot_product (coeffs_ e) tmp
                (get_total_num_coeffs (sea_ e) (order_ e)).
Proof.
  unfold EvaluateField, monomial_values, dot_product.
  destruct (scaled_difference _ _ _ _) as [x|]; simpl; [| done].
  destruct (for_loop _ (seqZ 0 _) (replicate _ 0)) as [heads|]; simpl;
    [| done].
  destruct (set_index heads _ MAXINT) as [heads'|]; simpl; [| done].
  destruct (Vector.set _ 0 1%R) as [tmp|]; simpl; [| done].
  by destruct (for_loop _ (seqZ 1 _) _) as [st|].
Qed.

Lemma dot_loop_add tmp coeffs1 coeffs2 coeffs3 (range : list Z) :
  (∀ i a b, i ∈ range → Vector.get coeffs1 i = Some a →
     Vector.get coeffs2 i = Some b →
     Vector.get coeffs3 i = Some (a + b)%R) →
  ∀ s1 s2 s3 v1 v2,
    s3 = (s1 + s2)%R →
    for_loop (λ i sum, c ← Vector.get coeffs1 i;
                       m ← Vector.get tmp i; Some (sum + c * m)%R)
      range s1 = Some v1 →
    for_loop (λ i sum, c ← Vector.get coeffs2 i;
                       m ← Vector.get tmp i; Some (sum + c * m)%R)
      range s2 = Some v2 →
    for_loop (λ i sum, c ← Vector.get coeffs3 i;
                       m ← Vector.get tmp i; Some (sum + c * m)%R)
      range s3 = Some (v1 + v2)%R.
Proof.
  induction range as [|i range IH]; intros Hsum s1 s2 s3 v1 v2 Hs;
    simpl.
  - intros [= <-] [= <-]. by rewrite Hs.
  - destruct (Vector.get coeffs1 i) as [a|] eqn:Ha; simpl; [| done].
    destruct (Vector.get coeffs2 i) as [b|] eqn:Hb; simpl.
    2:{ by destruct (Vector.get tmp i). }
    rewrite (Hsum i a b) by (done || by left). simpl.
    destruct (Vector.get tmp i) as [m|]; simpl; [| done].
    apply IH; [| subst s3; lra].
    intros i' a' b' Hi'. apply Hsum. by right.
Qed.

(** X7. The field superposes: when the coefficients of a third expansion
    are, below the count of the order, the sums of those of two others that
    it shares kernel, center, order and table with, its field at a query
    point is the sum of their fields. *)
Theorem EvaluateField_superposition data row_num x_q e
  coeffs1 coeffs2 coeffs3 v1 v2 :
  (∀ i a b, 0 ≤ i < get_total_num_coeffs (sea_ e) (order_ e) →
     Vector.get coeffs1 i = Some a → Vector.get coeffs2 i = Some b →
     Vector.get coeffs3 i = Some (a + b)%R) →
  EvaluateField data row_num x_q (set_coeffs coeffs1 e) = Some v1 →
  EvaluateField data row_num x_q (set_coeffs coeffs2 e) = Some v2 →
  EvaluateField data row_num x_q (set_coeffs coeffs3 e) = Some (v1 + v2)%R.
Proof.
  intros Hsum. rewrite !EvaluateField_dot_product. simpl.
  change (monomial_values data row_num x_q (set_coeffs _ e))
    with (monomial_values data row_num x_q e).
  destruct (monomial_values data row_num x_q e) as [tmp|]; simpl;
    [| done].
  apply dot_loop_add; [| lra].
  intros i a b Hi. apply Hsum. apply elem_of_seqZ in Hi. lia.
Qed.

Lemma for_loop_ext_in {S I : Type} (body1 body2 : I → S → option S)
  (range : list I) :
  (∀ i s, i ∈ range → body1 i s = body2 i s) →
  ∀ s, for_loop body1 range s = for_loop body2 range s.
Proof.
  induction range as [|i range IH]; intros Hext s; simpl; [done |].
  rewrite Hext by by left.
  destruct (body2 i s); simpl; [| done].
  apply IH. intros i' s' Hi'. apply Hext. by right.
Qed.

(** X8. [EvaluateField] reads the coefficients below the count of the
    current order only: two buffers that agree there give the same result,
    whatever they hold from that count on. *)
Theorem EvaluateField_reads_current_order data row_num x_q e
  coeffs1 coeffs2 :
  (∀ i, 0 ≤ i < get_total_num_coeffs (sea_ e) (order_ e) →
     Vector.get coeffs1 i = Vector.get coeffs2 i) →
  EvaluateField data row_num x_q (set_coeffs coeffs1 e)
  = EvaluateField data row_num x_q (set_coeffs coeffs2 e).
Proof.
  intros Hagree. rewrite !EvaluateField_dot_product. simpl.
  change (monomial_values data row_num x_q (set_coeffs _ e))
    with (monomial_values data row_num x_q e).
  destruct (monomial_values data row_num x_q e) as [tmp|]; simpl;
    [| done].
  apply for_loop_ext_in. intros i sum Hi.
  apply elem_of_seqZ in Hi. by rewrite Hagree by lia.
Qed.

Lemma dot_loop_zero tmp coeffs (range : list Z) :
  (∀ i c, i ∈ range → Vector.get coeffs i = Some c → c = 0%R) →
  ∀ s v,
    for_loop (λ i sum, c ← Vector.get coeffs i;
                       m ← Vector.get tmp i; Some (sum + c * m)%R)
      range s = Some v →
    v = s.
Proof.
  induction range as [|i range IH]; intros Hzero s v; simpl.
  - by intros [= <-].
  - destruct (Vector.get coeffs i) as [c|] eqn:Hc; simpl; [| done].
    destruct (Vector.get tmp i) as [m|]; simpl; [| done].
    intros Hrest. apply IH in Hrest.
    + rewrite Hrest, (Hzero i c) by (done || by left). lra.
    + intros i' c' Hi'. apply Hzero. by right.
Qed.

(** X9. An expansion whose coefficients below the count of its order are
    all zero has the field 0 wherever its evaluation is defined; so has an
    expansion that comes from either overload of [Init]. *)
Theorem EvaluateField_zero data row_num x_q :
  (∀ e v,
     (∀ i c, 0 ≤ i < get_total_num_coeffs (sea_ e) (order_ e) →
        Vector.get (coeffs_ e) i = Some c → c = 0%R) →
     EvaluateField data row_num x_q e = Some v → v = 0%R)
  ∧ (∀ bandwidth center sea v,
       EvaluateField data row_num x_q (Init_with_center bandwidth center sea)
       = Some v →
       v = 0%R)
  ∧ (∀ bandwidth sea v,
       EvaluateField data row_num x_q (Init bandwidth sea) = Some v →
       v = 0%R).
Proof.
  assert (Hzero : ∀ e v,
    (∀ i c, 0 ≤ i < get_total_num_coeffs (sea_ e) (order_ e) →
       Vector.get (coeffs_ e) i = Some c → c = 0%R) →
    EvaluateField data row_num x_q e = Some v → v = 0%R).
  { intros e v Hzero. rewrite EvaluateField_dot_product.
    destruct (monomial_values data row_num x_q e) as [tmp|]; simpl;
      [| done].
    apply dot_loop_zero. intros i c Hi. apply Hzero.
    apply elem_of_seqZ in Hi. lia. }
  assert (Hfresh : ∀ (n : nat) i c,
    Vector.get (Vector.SetZero (replicate n 0%R)) i = Some c → c = 0%R).
  { intros n i c Hc. apply at_index_Some in Hc as [_ Hc].
    unfold Vector.SetZero in Hc.
    by apply lookup_replicate in Hc as [-> _]. }
  split; [exact Hzero |]. split.
  - intros bandwidth center sea v. apply Hzero.
    intros i c _. apply Hfresh.
  - intros bandwidth sea v. apply Hzero.
    intros i c _. apply Hfresh.
Qed.


End EvaluationFurther.

(** ** Evaluation on the line *)

Section EvaluationLine.

Context {K : Type} `{Kernel K} `{KernelDerivative}.

Implicit Types (e : LocalExpansion K) (coeffs tmp : Vector.t).

Lemma seqZ_one (m : Z) : seqZ m 1 = [m].
Proof. rewrite seqZ_cons by lia. by rewrite seqZ_nil by lia. Qed.

(** In dimension 1 the turn of the recurrence for the order [k + 1] appends
    the product of the monomial of the order [k] and the displacement. *)
Lemma line_turn (x : R) (k : nat) tmp (v : R) (order : Z) :
  tmp !! k = Some v → (S k < length tmp)%nat →
  extend_order [x] 1 order ([Z.of_nat k; MAXINT], tmp, Z.of_nat k + 1)
  = Some ([Z.of_nat (S k); MAXINT], <[S k := (v * x)%R]> tmp,
          Z.of_nat (S k) + 1).
Proof.
  intros Hv Hroom. unfold extend_order. rewrite seqZ_one.
  cbn [for_loop fst snd]. unfold extend_dimension.
  change (at_index [Z.of_nat k; MAXINT] 0) with (Some (Z.of_nat k)).
  cbn [mbind option_bind].
  change (set_index [Z.of_nat k; MAXINT] 0 (Z.of_nat k + 1))
    with (Some [Z.of_nat k + 1; MAXINT]).
  cbn [mbind option_bind].
  change (Vector.get [x] 0) with (Some x). cbn [mbind option_bind].
  replace (Z.of_nat k + 1 - Z.of_nat k) with 1 by lia.
  rewrite seqZ_one. cbn [for_loop]. unfold extend_monomial.
  cbn [fst snd]. unfold Vector.get. rewrite at_index_of_nat, Hv.
  cbn [mbind option_bind].
  replace (Vector.set tmp (Z.of_nat k + 1) (v * x)%R)
    with (Some (<[S k := (v * x)%R]> tmp)).
  - cbn [mbind option_bind fst snd].
    by replace (Z.of_nat k + 1) with (Z.of_nat (S k)) by lia.
  - symmetry. apply set_index_Some. split; [lia |].
    by replace (Z.to_nat (Z.of_nat k + 1)) with (S k) by lia.
Qed.

Lemma line_recurrence (x : R) (len : nat) (m : nat) :
  ∀ (k : nat) tmp,
    (k + m < len)%nat → length tmp = len →
    (∀ i : nat, (i ≤ k)%nat → tmp !! i = Some (x ^ i)%R) →
    ∃ tmp',
      for_loop (extend_order [x] 1) (seqZ (Z.of_nat k + 1) (Z.of_nat m))
        ([Z.of_nat k; MAXINT], tmp, Z.of_nat k + 1)
      = Some ([Z.of_nat (k + m); MAXINT], tmp', Z.of_nat (k + m) + 1)
      ∧ length tmp' = len
      ∧ ∀ i : nat, (i ≤ k + m)%nat → tmp' !! i = Some (x ^ i)%R.
Proof.
  induction m as [|m IH]; intros k tmp Hroom Hlen Hpowers.
  - exists tmp. rewrite seqZ_nil by lia. rewrite Nat.add_0_r. by simpl.
  - rewrite seqZ_cons by lia. cbn [for_loop].
    rewrite (line_turn x k tmp (x ^ k)%R) by (by apply Hpowers || lia).
    cbn [mbind option_bind].
    replace (Z.succ (Z.of_nat k + 1)) with (Z.of_nat (S k) + 1) by lia.
    replace (Z.pred (Z.of_nat (S m))) with (Z.of_nat m) by lia.
    destruct (IH (S k) (<[S k := (x ^ k * x)%R]> tmp))
      as (tmp' & Hloop & Hlen' & Hpowers').
    + lia.
    + by rewrite length_insert.
    + intros i Hi. destruct (decide (i = S k)) as [-> | Hne].
      * rewrite list_lookup_insert_eq by lia. f_equal. simpl. lra.
      * rewrite list_lookup_insert_ne by done. apply Hpowers. lia.
    + exists tmp'. replace (k + S m)%nat with (S k + m)%nat by lia.
      by rewrite Hloop.
Qed.

Lemma dot_loop_powers coeffs tmp (x : R) (range : list Z) :
  (∀ j, j ∈ range →
     0 ≤ j ∧ is_Some (Vector.get coeffs j)
     ∧ Vector.get tmp j = Some (x ^ Z.to_nat j)%R) →
  ∀ s,
    for_loop (λ i sum, c ← Vector.get coeffs i;
                       m ← Vector.get tmp i; Some (sum + c * m)%R)
      range s
    = Some (s + Rsum ((λ j, default 0 (Vector.get coeffs j)
                            * x ^ Z.to_nat j)%R <$> range))%R.
Proof.
  induction range as [|j range IH]; intros Hrange s; simpl.
  - f_equal; lra.
  - destruct (Hrange j) as (_ & [c Hc] & Hm); [by left |].
    rewrite Hc, Hm. simpl. rewrite IH.
    + f_equal. apply Rplus_assoc.
    + intros j' Hj'. apply Hrange. by right.
Qed.

(** X11. In dimension 1, over a table that counts [order + 1] coefficients
    for an order, [EvaluateField] returns the value of the polynomial of
    the coefficients up to the order at the scaled displacement of the
    query point from the center: the recurrence builds the powers of the
    displacement. *)
Theorem EvaluateField_line data row_num x_q e (q c : R) :
  get_dimension (sea_ e) = 1 →
  0 ≤ order_ e →
  get_total_num_coeffs (sea_ e) (order_ e) = order_ e + 1 →
  order_ e + 1 ≤ Z.of_nat (length (coeffs_ e)) →
  query_coordinate data row_num x_q 0 = Some q →
  Vector.get (center_ e) 0 = Some c →
  EvaluateField data row_num x_q e
  = Some (polynomial (coeffs_ e)
            ((q - c) / BandwidthFactor (bandwidth_sq e)) (order_ e + 1)).
Proof.
  intros Hdim Horder Htotal Hbuffer Hq Hc.
  rewrite EvaluateField_dot_product.
  unfold monomial_values, scaled_difference.
  rewrite Hdim, Htotal, seqZ_one. cbn [mapM]. rewrite Hq, Hc.
  cbn [mbind option_bind mret option_ret for_loop].
  set (x := ((q - c) / BandwidthFactor (bandwidth_sq e))%R).
  change (Z.to_nat (1 + 1)) with 2%nat.
  change (set_index (replicate 2 0) 0 0) with (Some [0; 0]).
  cbn [mbind option_bind].
  change (set_index [0; 0] 1 MAXINT) with (Some [0; MAXINT]).
  cbn [mbind option_bind].
  unfold Vector.Init.
  replace (Z.to_nat (order_ e + 1)) with (S (Z.to_nat (order_ e))) by lia.
  change (Vector.set (replicate (S (Z.to_nat (order_ e))) 0%R) 0 1%R)
    with (Some (1%R :: replicate (Z.to_nat (order_ e)) 0%R)).
  cbn [mbind option_bind].
  destruct (line_recurrence x (S (Z.to_nat (order_ e)))
              (Z.to_nat (order_ e)) 0%nat
              (1%R :: replicate (Z.to_nat (order_ e)) 0%R))
    as (tmp & Hloop & Hlen & Hpowers).
  - lia.
  - simpl. by rewrite length_replicate.
  - intros i Hi. by replace i with 0%nat by lia.
  - change (Z.of_nat 0 + 1) with 1 in Hloop.
    change (Z.of_nat 0) with 0 in Hloop.
    rewrite Z2Nat.id in Hloop by done. rewrite Hloop.
    cbn [mbind option_bind fst snd]. unfold dot_product.
    rewrite (dot_loop_powers _ _ x).
    + unfold polynomial. f_equal; lra.
    + intros j Hj. apply elem_of_seqZ in Hj. split; [lia |]. split.
      * apply at_index_is_Some. lia.
      * apply at_index_Some. split; [lia |]. apply Hpowers. lia.
Qed.

End EvaluationLine.

(** ** Order selection, further *)

Section OrderSelectionFurther.

Context {K : Type} `{Kernel K} `{KernelDerivative}.

Implicit Types (e : LocalExpansion K) (region : DHrectBound).

Lemma order_search_range sea frontfactor r max_error dim max_order fuel :
  ∀ p rp ret stored,
    0 ≤ p →
    order_search sea frontfactor r max_error dim max_order fuel p rp
    = Some (ret, stored) →
    ret = -1 ∨ p ≤ ret ≤ max_order.
Proof.
  induction fuel as [|fuel IH]; intros p rp ret stored Hp; simpl.
  - destruct (p >? max_order); [| done]. intros [= <- <-]. by left.
  - destruct (Z.gtb_spec p max_order); [intros [= <- <-]; by left |].
    destruct (candidate _ _ _ _ _) as [[bound |] |]; simpl;
      [| intros [= <- <-]; by left | done].
    destruct (Rgt_dec bound max_error).
    + intros Hrest. apply IH in Hrest; lia.
    + intros [= <- <-]. right. lia.
Qed.

(** X12. The order that [OrderForEvaluating] returns is the sentinel -1 or
    lies between 0 and the maximum order of the table: an order that it
    hands out never leaves the table. *)
Theorem OrderForEvaluating_range region min_dist_sqd_regions max_error
  e ret stored :
  OrderForEvaluating region min_dist_sqd_regions max_error e
  = Some (ret, stored) →
  ret = -1 ∨ 0 ≤ ret ≤ get_max_order (sea_ e).
Proof.
  unfold OrderForEvaluating.
  destruct (Rge_dec _ 1); [intros [= <- <-]; by left |].
  apply order_search_range. lia.
Qed.

Lemma nonempty_of_success region min_dist_sqd_regions max_error e p stored :
  OrderForEvaluating region min_dist_sqd_regions max_error e
  = Some (p, stored) →
  p ≠ -1 → region ≠ [].
Proof.
  intros Hrun Hp ->. unfold OrderForEvaluating in Hrun. simpl in Hrun.
  destruct (Rge_dec _ 1); [by injection Hrun as <- _ |].
  destruct (Z.to_nat _); simpl in Hrun;
    destruct (_ >? _); by try injection Hrun as <- _.
Qed.

(** Two searches over the same table and dimension: when the second stops
    wherever the first does, it stops no later. *)
Lemma OrderForEvaluating_compare e region1 dist1 max_error1
  region2 dist2 max_error2 p1 stored1 :
  bound_dim region1 = bound_dim region2 →
  (too_wide e region2 → too_wide e region1) →
  (∀ p, 0 ≤ p ≤ get_max_order (sea_ e) → factorials_valid e region1 p →
     (bound_term e region1 dist1 p <= max_error1)%R →
     (bound_term e region2 dist2 p <= max_error2)%R) →
  OrderForEvaluating region1 dist1 max_error1 e = Some (p1, stored1) →
  p1 ≠ -1 →
  ∃ p2 stored2,
    OrderForEvaluating region2 dist2 max_error2 e = Some (p2, stored2)
    ∧ p2 ≠ -1 ∧ p2 ≤ p1.
Proof.
  intros Hdim Hwide Hbound Hrun1 Hp1.
  pose proof (nonempty_of_success _ _ _ _ _ _ Hrun1 Hp1) as Hne1.
  assert (Hne2 : region2 ≠ []).
  { intros ->. destruct region1; [done | discriminate Hdim]. }
  assert (Hvalid : ∀ p, factorials_valid e region2 p
                        ↔ factorials_valid e region1 p).
  { intros p. unfold factorials_valid, floor_fact, ceil_fact.
    by rewrite Hdim. }
  destruct (OrderForEvaluating_outcome e region1 dist1 max_error1 Hne1)
    as (res1 & Hres1 & [[-> _] | (q1 & -> & Hw1 & Hf1)]);
    rewrite Hrun1 in Hres1; [by injection Hres1 as -> _ |].
  injection Hres1 as <- ->.
  destruct Hf1 as (Hq1 & Hv1 & Hb1 & Hbefore1).
  assert (Hstop : ¬ passed e region2 dist2 max_error2 p1).
  { intros [_ Hgt]. specialize (Hbound p1 Hq1 Hv1). lra. }
  destruct (OrderForEvaluating_outcome e region2 dist2 max_error2 Hne2)
    as (res2 & Hres2 & [[-> [Hw2 | [Hall | (q & Hq & Hnv & Hqb)]]]
                       | (q2 & -> & _ & Hq2 & Hv2 & Hb2 & Hbefore2)]).
  - by destruct Hw1; apply Hwide.
  - by destruct Hstop; apply Hall.
  - destruct (Z.lt_trichotomy p1 q) as [Hlt | [-> | Hgt]].
    + destruct Hstop. apply Hqb. lia.
    + destruct Hnv. by apply Hvalid.
    + destruct Hnv. apply Hvalid.
      by destruct (Hbefore1 q) as [? _]; [lia |].
  - eexists _, _. split; [done |]. split; [lia |].
    destruct (Z.le_gt_cases q2 p1) as [? | Hgt]; [done |].
    destruct Hstop. apply Hbefore2. lia.
Qed.

Lemma widest_width_from (w0 : R) region :
  (w0 <= foldl (λ w range, Rmax w (width range)) w0 region)%R.
Proof.
  revert w0. induction region as [|range region IH]; intros w0; simpl;
    [lra |].
  eapply Rle_trans; [apply (Rbasic_fun.Rmax_l w0 (width range)) | apply IH].
Qed.

Lemma widest_width_nonneg region : (0 <= widest_width region)%R.
Proof. apply widest_width_from. Qed.

Lemma width_ratio_nonneg e region :
  (0 < bandwidth_sq e)%R → (0 <= width_ratio e region)%R.
Proof.
  intros Hbw. unfold width_ratio.
  apply Rmult_le_pos; [apply widest_width_nonneg |].
  apply Rlt_le, Rinv_0_lt_compat.
  pose proof (sqrt_lt_R0 _ Hbw). lra.
Qed.

(** The divisor of the bound term: positive when the factorials are. *)
Lemma bound_divisor_positive e region p :
  (∀ n, ¬ (factorial (sea_ e) n < 0)%R → (0 < factorial (sea_ e) n)%R) →
  factorials_valid e region p →
  (0 < / sqrt (powerRZ (floor_fact e region p)
                 (bound_dim region - Z.rem p (bound_dim region))
               * powerRZ (ceil_fact e region p)
                   (Z.rem p (bound_dim region))))%R.
Proof.
  intros Hfact [Hf Hc].
  apply Rinv_0_lt_compat, sqrt_lt_R0, Rmult_lt_0_compat;
    apply powerRZ_lt; by apply Hfact.
Qed.

(** X13. Order selection is monotone in the distance: with a positive
    bandwidth, over a table whose counts of coefficients do not decrease
    with the order and whose valid factorials are positive, a larger
    minimum squared distance never needs a higher order: where the search
    succeeds for the nearer region it succeeds for the farther one,
    with an order that is not above. *)
Theorem OrderForEvaluating_distance_monotone e region dist1 dist2
  max_error p1 stored1 :
  (0 < bandwidth_sq e)%R →
  (∀ n, ¬ (factorial (sea_ e) n < 0)%R → (0 < factorial (sea_ e) n)%R) →
  (∀ p, 0 ≤ p ≤ get_max_order (sea_ e) →
     get_total_num_coeffs (sea_ e) p
     ≤ get_total_num_coeffs (sea_ e) (p + 1)) →
  (dist1 <= dist2)%R →
  OrderForEvaluating region dist1 max_error e = Some (p1, stored1) →
  p1 ≠ -1 →
  ∃ p2 stored2,
    OrderForEvaluating region dist2 max_error e = Some (p2, stored2)
    ∧ p2 ≠ -1 ∧ p2 ≤ p1.
Proof.
  intros Hbw Hfact Hcount Hdist.
  apply OrderForEvaluating_compare; [done | done |].
  intros p Hp Hv Hb. eapply Rle_trans; [| exact Hb].
  unfold bound_term, Rdiv.
  apply Rmult_le_compat_r;
    [by apply Rlt_le, bound_divisor_positive |].
  apply Rmult_le_compat_r;
    [by apply pow_le, width_ratio_nonneg |].
  apply Rmult_le_compat_r; [apply IZR_le; specialize (Hcount p Hp); lia |].
  unfold frontfactor.
  destruct Hdist as [Hlt | ->]; [| lra].
  apply Rlt_le, exp_increasing. unfold Rdiv.
  apply Rmult_lt_compat_r; [apply Rinv_0_lt_compat; lra | lra].
Qed.

(** X14. Order selection is monotone in the width of the region: under the
    same conditions on bandwidth and table, a region of the same number of
    dimensions whose widest width is not larger never needs a higher order. *)
Theorem OrderForEvaluating_width_monotone e region1 region2
  min_dist_sqd_regions max_error p1 stored1 :
  (0 < bandwidth_sq e)%R →
  (∀ n, ¬ (factorial (sea_ e) n < 0)%R → (0 < factorial (sea_ e) n)%R) →
  (∀ p, 0 ≤ p ≤ get_max_order (sea_ e) →
     get_total_num_coeffs (sea_ e) p
     ≤ get_total_num_coeffs (sea_ e) (p + 1)) →
  length region1 = length region2 →
  (widest_width region2 <= widest_width region1)%R →
  OrderForEvaluating region1 min_dist_sqd_regions max_error e
  = Some (p1, stored1) →
  p1 ≠ -1 →
  ∃ p2 stored2,
    OrderForEvaluating region2 min_dist_sqd_regions max_error e
    = Some (p2, stored2)
    ∧ p2 ≠ -1 ∧ p2 ≤ p1.
Proof.
  intros Hbw Hfact Hcount Hlen Hwidth.
  assert (Hdim : bound_dim region1 = bound_dim region2)
    by (unfold bound_dim; by rewrite Hlen).
  assert (Hratio : (width_ratio e region2 <= width_ratio e region1)%R).
  { unfold width_ratio, Rdiv. apply Rmult_le_compat_r; [| done].
    apply Rlt_le, Rinv_0_lt_compat.
    pose proof (sqrt_lt_R0 _ Hbw). lra. }
  apply OrderForEvaluating_compare; [done | |].
  - unfold too_wide. lra.
  - intros p Hp Hv Hb. eapply Rle_trans; [| exact Hb].
    unfold bound_term, Rdiv, floor_fact, ceil_fact. rewrite <- Hdim.
    apply Rmult_le_compat_r;
      [by apply Rlt_le, (bound_divisor_positive e region1 p) |].
    apply Rmult_le_compat_l.
    + apply Rmult_le_pos; [apply Rlt_le, exp_pos |].
      apply IZR_le. specialize (Hcount p Hp). lia.
    + apply pow_incr. split; [by apply width_ratio_nonneg | done].
Qed.

End OrderSelectionFurther.

(** ** Translation from a far-field expansion, further *)

Section FarFieldFurther.

Context {K : Type} `{Kernel K} `{KernelDerivative}.

Implicit Types (e : LocalExpansion K) (se : FarFieldExpansion).

(** X15. [TranslateFromFarField] has no effect on the destination beyond
    its coefficients and its order: kernel, center and table are those of
    before and the buffer keeps its length. *)
Theorem TranslateFromFarField_keeps se e e' :
  TranslateFromFarField se e = Some e' →
  kernel_ e' = kernel_ e ∧ get_center e' = get_center e
  ∧ sea_ e' = sea_ e
  ∧ length (get_coeffs e') = length (get_coeffs e).
Proof.
  intros Hrun.
  destruct (TranslateFromFarField_coeffs se e e' Hrun) as (Hlen & _ & _).
  unfold get_center, get_coeffs. revert Hrun. unfold TranslateFromFarField.
  destruct (scaled_difference _ _ _ _) as [cent_diff|]; simpl; [| done].
  destruct (mapM _ _) as [arrtmp|]; simpl; [| done].
  destruct (for_loop _ _ _) as [coeffs|]; simpl; [| done].
  intros [= <-]. by destruct (_ >? _).
Qed.

Lemma products_of_zero sea derivative_map far_coeffs j (range : list Z) :
  (∀ k c, Vector.get far_coeffs k = Some c → c = 0%R) →
  ∀ products,
    mapM (λ k, beta_plus_alpha ←
                 add_multiindices (get_dimension sea)
                   (get_multiindex sea j) (get_multiindex sea k);
               far_coeff ← Vector.get far_coeffs k;
               Some (far_coeff
                     * ComputePartialDerivative derivative_map
                         beta_plus_alpha)%R)
      range = Some products →
    Rsum products = 0%R.
Proof.
  intros Hzero. induction range as [|k range IH]; intros products.
  - by intros [= <-].
  - rewrite mapM_Some. intros Hall.
    apply Forall2_cons_inv_l in Hall as (p & products' & Hp & Hrest & ->).
    destruct (add_multiindices _ _ _) as [bpa|]; simpl in Hp; [| done].
    destruct (Vector.get far_coeffs k) as [c|] eqn:Hc; simpl in Hp;
      [| done].
    injection Hp as <-. simpl.
    rewrite (IH products') by by apply mapM_Some.
    rewrite (Hzero k c Hc). lra.
Qed.

(** X16. A far-field source whose coefficients are all zero adds nothing:
    the translation leaves the coefficient buffer of the destination as it
    is (and can only raise its order). *)
Theorem TranslateFromFarField_zero_source se e e' :
  (∀ k c, Vector.get (ff_coeffs se) k = Some c → c = 0%R) →
  TranslateFromFarField se e = Some e' →
  get_coeffs e' = get_coeffs e.
Proof.
  intros Hzero Hrun.
  destruct (TranslateFromFarField_coeffs se e e' Hrun) as (Hlen & Hin & Hout).
  unfold get_coeffs. apply list_eq. intros i.
  rewrite <- !at_index_of_nat.
  destruct (decide (0 ≤ Z.of_nat i
                    < get_total_num_coeffs (sea_ e) (ff_order se)))
    as [Hi | Hi]; [| by apply Hout].
  destruct (Hin _ Hi) as (c & x & Hc & Hx & Hnew).
  change (Vector.get (coeffs_ e') (Z.of_nat i)
          = Vector.get (coeffs_ e) (Z.of_nat i)).
  rewrite Hnew, Hc. f_equal.
  unfold far_field_normalized_sum in Hx.
  destruct (far_field_derivative_map _ _ _ _) as [dm|]; simpl in Hx;
    [| done].
  destruct (far_field_products _ _ _ _ _) as [products|] eqn:Hproducts;
    simpl in Hx; [| done].
  destruct (Vector.get (get_neg_inv_multiindex_factorials (sea_ e)) _)
    as [n|]; simpl in Hx; [| done].
  injection Hx as <-.
  rewrite (products_of_zero _ _ _ _ _ Hzero _ Hproducts). lra.
Qed.

Lemma positive_sum_nonneg (l : list R) : (0 <= positive_sum l)%R.
Proof.
  induction l as [|x l IH]; simpl; [lra |].
  destruct (Rgt_dec x 0); lra.
Qed.

Lemma nonpositive_sum_nonpos (l : list R) : (nonpositive_sum l <= 0)%R.
Proof.
  induction l as [|x l IH]; simpl; [lra |].
  destruct (Rgt_dec x 0); lra.
Qed.

Lemma far_field_loop_split sea derivative_map far_coeffs j
  (range : list Z) :
  ∀ acc s,
    for_loop (far_field_term sea derivative_map far_coeffs j) range acc
    = Some s →
    ∃ products,
      mapM (λ k, beta_plus_alpha ←
                   add_multiindices (get_dimension sea)
                     (get_multiindex sea j) (get_multiindex sea k);
                 far_coeff ← Vector.get far_coeffs k;
                 Some (far_coeff
                       * ComputePartialDerivative derivative_map
                           beta_plus_alpha)%R)
        range = Some products
      ∧ s.1 = (acc.1 + positive_sum products)%R
      ∧ s.2 = (acc.2 + nonpositive_sum products)%R.
Proof.
  induction range as [|k range IH]; intros acc s Hloop; simpl in Hloop.
  - injection Hloop as <-. exists []. simpl. split; [done |]. split; lra.
  - destruct (far_field_term sea derivative_map far_coeffs j k acc)
      as [acc1|] eqn:Hterm; simpl in Hloop; [| done].
    unfold far_field_term in Hterm.
    destruct (add_multiindices _ _ _) as [beta_plus_alpha|] eqn:Hsum_index;
      simpl in Hterm; [| done].
    destruct (Vector.get far_coeffs k) as [far_coeff|] eqn:Hfar;
      simpl in Hterm; [| done].
    injection Hterm as <-.
    destruct (IH _ _ Hloop) as (products & Hproducts & Hpos & Hneg).
    exists ((far_coeff
             * ComputePartialDerivative derivative_map beta_plus_alpha)%R
            :: products).
    split.
    + apply mapM_Some. constructor; [| by apply mapM_Some].
      by rewrite Hsum_index; simpl; rewrite Hfar.
    + rewrite Hpos, Hneg. unfold split_add. simpl.
      destruct (Rgt_dec _ 0); simpl; split; lra.
Qed.

(** X17. The split sum of the far-field translation: for a destination
    multi-index the positive accumulator ends as the sum of the positive
    products and the negative one as the sum of the others, so the first is
    never negative and the second never positive. *)
Theorem far_field_sums_split sea derivative_map far_coeffs
  total_num_coeffs j s :
  far_field_sums sea derivative_map far_coeffs total_num_coeffs j = Some s →
  ∃ products,
    far_field_products sea derivative_map far_coeffs total_num_coeffs j
    = Some products
    ∧ s.1 = positive_sum products ∧ s.2 = nonpositive_sum products
    ∧ (0 <= s.1)%R ∧ (s.2 <= 0)%R.
Proof.
  intros Hsums. unfold far_field_sums in Hsums.
  apply far_field_loop_split in Hsums as (products & Hproducts & Hpos & Hneg).
  exists products. simpl in Hpos, Hneg.
  pose proof (positive_sum_nonneg products).
  pose proof (nonpositive_sum_nonpos products).
  split; [done |]. repeat split; lra.
Qed.


End FarFieldFurther.

(** ** Translation to another local expansion, further *)

Section LocalToLocalFurther.

Context {K : Type} `{Kernel K} `{KernelDerivative}.

Implicit Types (me dest : LocalExpansion K) (σ : list (LocalExpansion K)).

(** The second store differs from the first in the coefficients of the
    object at [to] at most, and their number is the same. *)
Local Abbreviation only_coeffs_at to :=
  (λ σ1 σ2 : list (LocalExpansion K),
     length σ2 = length σ1
     ∧ ∀ i d, σ1 !! i = Some d →
         ∃ d', σ2 !! i = Some d'
               ∧ kernel_ d' = kernel_ d ∧ center_ d' = center_ d
               ∧ sea_ d' = sea_ d ∧ order_ d' = order_ d
               ∧ length (coeffs_ d') = length (coeffs_ d)
               ∧ (i ≠ to → d' = d)).

Lemma translate_index_only_coeffs this to total_num_coeffs center_diff j
  σ σ' :
  translate_index this to total_num_coeffs center_diff j σ = Some σ' →
  only_coeffs_at to σ σ'.
Proof.
  unfold translate_index.
  destruct (σ !! this) as [me|]; simpl; [| done].
  destruct (at_index _ j) as [upper|]; simpl; [| done].
  destruct (upper_sums _ _ _ _ _ _ _) as [sums|]; simpl; [| done].
  destruct (σ !! to) as [dest|] eqn:Hdest; simpl; [| done].
  destruct (Vector.add_to _ _ _) as [new_coeffs|] eqn:Hadd; simpl;
    [| done].
  intros [= <-]. split; [apply length_insert |].
  intros i d Hd. destruct (decide (to = i)) as [<- | Hne].
  - rewrite list_lookup_insert_eq by by eapply lookup_lt_Some.
    eexists. split; [done |]. replace d with dest by congruence. simpl.
    by rewrite (add_to_length _ _ _ _ Hadd).
  - rewrite list_lookup_insert_ne by done. by exists d.
Qed.

Lemma only_coeffs_loop this to total_num_coeffs center_diff
  (range : list Z) σ σ' :
  for_loop (translate_index this to total_num_coeffs center_diff) range σ
  = Some σ' →
  only_coeffs_at to σ σ'.
Proof.
  apply (for_loop_preorder (only_coeffs_at to)).
  - intros σ0. split; [done |]. intros i d Hd. by exists d.
  - intros σ1 σ2 σ3 [Hlen12 H12] [Hlen23 H23].
    split; [congruence |]. intros i d Hd.
    destruct (H12 i d Hd) as (d2 & Hd2 & Hk2 & Hc2 & Hs2 & Ho2 & Hl2 & He2).
    destruct (H23 i d2 Hd2) as (d3 & Hd3 & Hk3 & Hc3 & Hs3 & Ho3 & Hl3 & He3).
    exists d3. split; [done |].
    repeat split; try congruence.
    intros Hne. rewrite He3, He2 by done. done.
  - intros j σ1 σ2. apply translate_index_only_coeffs.
Qed.

(** X19. [TranslateToLocal] changes one object, the destination, and of it
    the coefficients and the order only: every other object of the store,
    the receiver with them when it is another object, is as before; the
    destination keeps kernel, center, table and the length of its buffer,
    and its order becomes the larger of its own and the receiver's.  This
    holds also when the destination is the receiver itself. *)
Theorem TranslateToLocal_frame (this to : nat) σ σ' me dest :
  TranslateToLocal this to σ = Some σ' →
  σ !! this = Some me → σ !! to = Some dest →
  length σ' = length σ
  ∧ (∀ i, i ≠ to → σ' !! i = σ !! i)
  ∧ ∃ dest',
      σ' !! to = Some dest'
      ∧ kernel_ dest' = kernel_ dest
      ∧ get_center dest' = get_center dest
      ∧ sea_ dest' = sea_ dest
      ∧ length (get_coeffs dest') = length (get_coeffs dest)
      ∧ get_order dest' = Z.max (get_order dest) (get_order me).
Proof.
  intros Hrun Hme Hdest. unfold TranslateToLocal in Hrun.
  rewrite Hme, Hdest in Hrun. simpl in Hrun.
  destruct (scaled_difference _ _ _ _) as [center_diff|]; simpl in Hrun;
    [| done].
  set (dest1 := if get_order dest <? order_ me
                then set_order (order_ me) dest else dest).
  assert (Hσ1 : (if get_order dest <? order_ me
                 then <[to := set_order (order_ me) dest]> σ else σ)
                = <[to := dest1]> σ).
  { unfold dest1. destruct (_ <? _); [done |].
    symmetry. by apply list_insert_id. }
  rewrite Hσ1 in Hrun.
  apply only_coeffs_loop in Hrun as [Hlen Hsame].
  rewrite length_insert in Hlen.
  pose proof (lookup_lt_Some _ _ _ Hdest) as Hto.
  split; [done |]. split.
  - intros i Hne. destruct (σ !! i) as [d|] eqn:Hd.
    + destruct (Hsame i d) as (d' & -> & _ & _ & _ & _ & _ & ->);
        [by rewrite list_lookup_insert_ne | done | done].
    + apply lookup_ge_None. apply lookup_ge_None in Hd. lia.
  - destruct (Hsame to dest1) as (d' & Hd' & Hk & Hc & Hs & Ho & Hl & _);
      [by apply list_lookup_insert_eq |].
    exists d'. split; [done |].
    unfold get_center, get_coeffs, get_order in *.
    rewrite Hk, Hc, Hs, Ho, Hl. unfold dest1.
    destruct (Z.ltb_spec (order_ dest) (order_ me)); simpl;
      repeat split; lia.
Qed.

Lemma upper_sums_of_zero sea total_num_coeffs center_diff coeffs j
  (upper_mappings : list Z) :
  (∀ u c, Vector.get coeffs u = Some c → c = 0%R) →
  ∀ acc s,
    upper_sums sea total_num_coeffs center_diff coeffs j upper_mappings acc
    = Some s →
    (s.1 + s.2 = acc.1 + acc.2)%R.
Proof.
  intros Hzero.
  induction upper_mappings as [|upper rest IH]; intros acc s; simpl.
  - by intros [= <-].
  - destruct (upper >=? total_num_coeffs); [by intros [= <-] |].
    destruct (exponent_differences _ _ _) as [[tmp_storage|]|]; simpl;
      [| apply IH | done].
    destruct (power_product _ _ _) as [diff1|]; simpl; [| done].
    destruct (Vector.get coeffs upper) as [c|] eqn:Hc; simpl; [| done].
    intros Hrest. apply IH in Hrest. rewrite Hrest, split_add_sum.
    rewrite (Hzero upper c Hc). lra.
Qed.

(** X20. A receiver whose coefficients are all zero adds nothing: the
    translation into another object leaves the coefficient buffer of the
    destination as it is. *)
Theorem TranslateToLocal_zero_receiver (this to : nat) σ σ' me dest :
  (∀ u c, Vector.get (coeffs_ me) u = Some c → c = 0%R) →
  TranslateToLocal this to σ = Some σ' →
  this ≠ to → σ !! this = Some me → σ !! to = Some dest →
  ∃ dest', σ' !! to = Some dest' ∧ get_coeffs dest' = get_coeffs dest.
Proof.
  intros Hzero Hrun Hne Hme Hdest.
  destruct (TranslateToLocal_coeffs this to σ σ' me dest Hrun Hne Hme Hdest)
    as (dest' & -> & _ & Hlen & Hin & Hout).
  exists dest'.
  split; [apply list_lookup_insert_eq; by eapply lookup_lt_Some |].
  unfold get_coeffs. apply list_eq. intros i.
  rewrite <- !at_index_of_nat.
  destruct (decide (0 ≤ Z.of_nat i
                    < get_total_num_coeffs (sea_ me) (order_ me)))
    as [Hi | Hi]; [| by apply Hout].
  destruct (Hin _ Hi) as (c & x & Hc & Hx & Hnew).
  change (Vector.get (coeffs_ dest') (Z.of_nat i)
          = Vector.get (coeffs_ dest) (Z.of_nat i)).
  rewrite Hnew, Hc. f_equal.
  unfold local_sum in Hx.
  destruct (scaled_difference _ _ _ _) as [center_diff|]; simpl in Hx;
    [| done].
  destruct (at_index _ _) as [upper|]; simpl in Hx; [| done].
  destruct (upper_sums _ _ _ _ _ _ _) as [sums|] eqn:Hsums; simpl in Hx;
    [| done].
  injection Hx as <-.
  apply (upper_sums_of_zero _ _ _ _ _ _ Hzero) in Hsums. simpl in Hsums.
  lra.
Qed.

End LocalToLocalFurther.

(** ** Translation of an expansion onto itself *)

Section InPlace.

Context {K : Type} `{Kernel K} `{KernelDerivative}.

Implicit Types (me : LocalExpansion K) (σ : list (LocalExpansion K))
  (v : Vector.t).

Lemma translate_index_in_place this total_num_coeffs center_diff j σ me :
  σ !! this = Some me →
  translate_index this this total_num_coeffs center_diff j σ
  = translate_in_place (sea_ me) total_num_coeffs center_diff j (coeffs_ me)
    ≫= λ coeffs, Some (<[this := set_coeffs coeffs me]> σ).
Proof.
  intros Hme. unfold translate_index, translate_in_place.
  rewrite Hme. simpl.
  destruct (at_index _ j) as [upper|]; simpl; [| done].
  by destruct (upper_sums _ _ _ _ _ _ _) as [sums|].
Qed.

Lemma translate_loop_in_place this total_num_coeffs center_diff
  (range : list Z) :
  ∀ σ me, σ !! this = Some me →
    for_loop (translate_index this this total_num_coeffs center_diff)
      range σ
    = for_loop (translate_in_place (sea_ me) total_num_coeffs center_diff)
        range (coeffs_ me)
      ≫= λ coeffs, Some (<[this := set_coeffs coeffs me]> σ).
Proof.
  induction range as [|j range IH]; intros σ me Hme.
  - simpl. f_equal. symmetry. apply list_insert_id.
    rewrite Hme. by destruct me.
  - simpl for_loop.
    rewrite (translate_index_in_place _ _ _ _ _ me) by done.
    destruct (translate_in_place _ _ _ j (coeffs_ me)) as [coeffs1|]; simpl;
      [| done].
    rewrite (IH _ (set_coeffs coeffs1 me)).
    + simpl. destruct (for_loop _ range coeffs1); simpl; [| done].
      by rewrite list_insert_insert_eq.
    + apply list_lookup_insert_eq. by eapply lookup_lt_Some.
Qed.

(** The sums read the buffer at the upper mappings below the count only. *)
Lemma upper_sums_ext sea total_num_coeffs center_diff v1 v2 j
  (upper_mappings : list Z) :
  (∀ u, u ∈ upper_mappings → u < total_num_coeffs →
     Vector.get v1 u = Vector.get v2 u) →
  ∀ acc,
    upper_sums sea total_num_coeffs center_diff v1 j upper_mappings acc
    = upper_sums sea total_num_coeffs center_diff v2 j upper_mappings acc.
Proof.
  induction upper_mappings as [|upper rest IH]; intros Hagree acc; simpl;
    [done |].
  destruct (Z.geb_spec upper total_num_coeffs) as [| Hlt]; [done |].
  rewrite (Hagree upper) by (by left || lia).
  assert (Hrest : ∀ acc',
    upper_sums sea total_num_coeffs center_diff v1 j rest acc'
    = upper_sums sea total_num_coeffs center_diff v2 j rest acc').
  { apply IH. intros u Hu. apply Hagree. by right. }
  destruct (exponent_differences _ _ _) as [[tmp_storage|]|]; simpl;
    [| apply Hrest | done].
  destruct (power_product _ _ _) as [diff1|]; simpl; [| done].
  destruct (Vector.get v2 upper) as [c|]; simpl; [| done].
  apply Hrest.
Qed.

(** With a table that lists for a position no position below it, the turns
    in place add to each position the sum over the buffer as it was at the
    start. *)
Lemma in_place_loop sea total_num_coeffs center_diff v0 (n : nat) :
  (∀ j upper_mappings u,
     at_index (get_upper_mapping_index sea) j = Some upper_mappings →
     u ∈ upper_mappings → j ≤ u) →
  ∀ (m : Z) v v',
    (∀ i, m ≤ i → Vector.get v i = Vector.get v0 i) →
    for_loop (translate_in_place sea total_num_coeffs center_diff)
      (seqZ m (Z.of_nat n)) v = Some v' →
    (∀ j, m ≤ j < m + Z.of_nat n →
       ∃ c x,
         Vector.get v0 j = Some c
         ∧ (upper_mappings ← at_index (get_upper_mapping_index sea) j;
            sums ← upper_sums sea total_num_coeffs center_diff v0 j
                     upper_mappings (0%R, 0%R);
            Some (sums.1 + sums.2)%R) = Some x
         ∧ Vector.get v' j = Some (c + x)%R)
    ∧ (∀ i, ¬ (m ≤ i < m + Z.of_nat n) →
         Vector.get v' i = Vector.get v i).
Proof.
  intros Hupper. induction n as [|n IH]; intros m v v' Hagree Hloop.
  - rewrite seqZ_nil in Hloop by lia. injection Hloop as <-.
    split; [intros j Hj; lia | done].
  - rewrite seqZ_cons in Hloop by lia. simpl in Hloop.
    destruct (translate_in_place sea total_num_coeffs center_diff m v)
      as [v1|] eqn:Hturn; simpl in Hloop; [| done].
    replace (Z.pred (Z.of_nat (S n))) with (Z.of_nat n) in Hloop by lia.
    unfold translate_in_place in Hturn.
    destruct (at_index (get_upper_mapping_index sea) m)
      as [upper_mappings|] eqn:Hmappings; simpl in Hturn; [| done].
    rewrite (upper_sums_ext _ _ _ v v0) in Hturn.
    2:{ intros u Hu _. apply Hagree. by eapply Hupper. }
    destruct (upper_sums _ _ _ v0 _ _ _) as [sums|] eqn:Hsums;
      simpl in Hturn; [| done].
    destruct (add_to_same _ _ _ _ Hturn) as (c & Hc & Hv1).
    destruct (IH (Z.succ m) v1 v') as (Hin & Hout); [| done |].
    { intros i Hi. rewrite (add_to_other _ _ _ _ i Hturn) by lia.
      apply Hagree. lia. }
    split.
    + intros j Hj. destruct (decide (j = m)) as [-> | Hne].
      * exists c, (sums.1 + sums.2)%R.
        split; [by rewrite <- Hagree by lia |].
        split; [by rewrite Hmappings; simpl; rewrite Hsums |].
        rewrite Hout by lia. done.
      * apply Hin. lia.
    + intros i Hi. rewrite Hout by lia.
      apply (add_to_other _ _ _ _ i Hturn). lia.
Qed.

(** X21. [TranslateToLocal] with the receiver itself as destination adds
    into the buffer that it reads.  Over a table that lists among the upper
    mappings of a position no position below it, every sum is still read
    from the coefficients as they were before the call: the result is what
    the translation of a copy of the receiver would give, and the order is
    as before. *)
Theorem TranslateToLocal_onto_itself (this : nat) σ σ' me :
  (∀ j upper_mappings u,
     at_index (get_upper_mapping_index (sea_ me)) j = Some upper_mappings →
     u ∈ upper_mappings → j ≤ u) →
  TranslateToLocal this this σ = Some σ' →
  σ !! this = Some me →
  ∃ me',
    σ' !! this = Some me'
    ∧ get_order me' = get_order me
    ∧ ∀ j, 0 ≤ j < get_total_num_coeffs (sea_ me) (order_ me) →
        ∃ c x,
          Vector.get (coeffs_ me) j = Some c
          ∧ local_sum me (center_ me) j = Some x
          ∧ Vector.get (coeffs_ me') j = Some (c + x)%R.
Proof.
  intros Hupper Hrun Hme. unfold TranslateToLocal in Hrun.
  rewrite Hme in Hrun. simpl in Hrun. unfold local_sum.
  destruct (scaled_difference _ _ _ _) as [center_diff|]; simpl in *;
    [| done].
  rewrite Z.ltb_irrefl in Hrun.
  rewrite (translate_loop_in_place _ _ _ _ _ me Hme) in Hrun.
  destruct (for_loop _ _ (coeffs_ me)) as [coeffs|] eqn:Hloop;
    simpl in Hrun; [| done].
  injection Hrun as <-.
  exists (set_coeffs coeffs me).
  split; [apply list_lookup_insert_eq; by eapply lookup_lt_Some |].
  split; [done |].
  intros j Hj.
  assert (Hrange :
    seqZ 0 (get_total_num_coeffs (sea_ me) (order_ me))
    = seqZ 0 (Z.of_nat (Z.to_nat (get_total_num_coeffs (sea_ me)
                                    (order_ me)))))
    by (rewrite Z2Nat.id; [done | lia]).
  rewrite Hrange in Hloop.
  apply (in_place_loop _ _ _ (coeffs_ me)) in Hloop as [Hin _];
    [| done | done].
  apply Hin. lia.
Qed.

End InPlace.

(** ** Where the translation to another expansion is defined *)

Section LocalToLocalDefined.

Context {K : Type} `{Kernel K} `{KernelDerivative}.

Implicit Types (me dest : LocalExpansion K) (σ : list (LocalExpansion K)).

Lemma scaled_difference_length (a b : Z → option R) dim factor x :
  scaled_difference a b dim factor = Some x → length x = Z.to_nat dim.
Proof.
  unfold scaled_difference. intros Hx. apply mapM_Some_1 in Hx.
  apply Forall2_length in Hx. by rewrite length_seqZ in Hx.
Qed.

Lemma exponent_differences_defined (range : list Z)
  (beta_mapping alpha_mapping : list Z) :
  (∀ l, l ∈ range →
     is_Some (at_index beta_mapping l)
     ∧ is_Some (at_index alpha_mapping l)) →
  ∃ flagged,
    exponent_differences range beta_mapping alpha_mapping = Some flagged
    ∧ ∀ tmp_storage, flagged = Some tmp_storage →
        length tmp_storage = length range.
Proof.
  induction range as [|l range IH]; intros Hread; simpl.
  - exists (Some []). split; [done |]. by intros ? [= <-].
  - destruct (Hread l) as [[b ->] [a ->]]; [by left |]. simpl.
    destruct (b - a <? 0).
    + exists None. by split.
    + destruct IH as (flagged & -> & Hlen).
      { intros l' Hl'. apply Hread. by right. }
      simpl. destruct flagged as [tmp_storage|].
      * eexists. split; [done |]. intros ? [= <-]. simpl.
        by rewrite (Hlen tmp_storage).
      * exists None. by split.
Qed.

Lemma power_product_defined dim (center_diff : Vector.t)
  (tmp_storage : list Z) :
  length center_diff = Z.to_nat dim → length tmp_storage = Z.to_nat dim →
  is_Some (power_product dim center_diff tmp_storage).
Proof.
  intros Hdiff Hstorage. unfold power_product.
  destruct (for_loop_is_Some (λ _ : R, True)
              (λ l diff1, c ← Vector.get center_diff l;
                          t ← at_index tmp_storage l;
                          Some (diff1 * powerRZ c t)%R)
              (seqZ 0 dim)) with (s := 1%R) as (s & -> & _);
    [| done | by eexists].
  intros l diff1 Hl _. apply elem_of_seqZ in Hl.
  destruct (proj2 (at_index_is_Some center_diff l)) as [c Hc]; [lia |].
  destruct (proj2 (at_index_is_Some tmp_storage l)) as [t Ht]; [lia |].
  unfold Vector.get. rewrite Hc. simpl. rewrite Ht. by eexists.
Qed.

Lemma upper_sums_defined sea total_num_coeffs (center_diff coeffs : Vector.t)
  j (upper_mappings : list Z) :
  length center_diff = Z.to_nat (get_dimension sea) →
  get_dimension sea ≤ Z.of_nat (length (get_multiindex sea j)) →
  (∀ u, u ∈ upper_mappings → u < total_num_coeffs →
     0 ≤ u < Z.of_nat (length coeffs)
     ∧ get_dimension sea ≤ Z.of_nat (length (get_multiindex sea u))) →
  ∀ acc,
    is_Some (upper_sums sea total_num_coeffs center_diff coeffs j
               upper_mappings acc).
Proof.
  intros Hdiff Hj.
  induction upper_mappings as [|upper rest IH]; intros Hread acc; simpl;
    [by eexists |].
  destruct (Z.geb_spec upper total_num_coeffs) as [| Hlt]; [by eexists |].
  destruct (Hread upper) as [Hupper Hindex]; [by left | done |].
  assert (Hrest : ∀ acc',
    is_Some (upper_sums sea total_num_coeffs center_diff coeffs j rest acc')).
  { apply IH. intros u Hu. apply Hread. by right. }
  destruct (exponent_differences_defined (seqZ 0 (get_dimension sea))
              (get_multiindex sea upper) (get_multiindex sea j))
    as (flagged & -> & Hlen).
  { intros l Hl. apply elem_of_seqZ in Hl.
    split; apply at_index_is_Some; lia. }
  simpl. destruct flagged as [tmp_storage|]; [| apply Hrest].
  destruct (power_product_defined (get_dimension sea) center_diff
              tmp_storage) as [diff1 ->]; [done | |].
  { rewrite (Hlen tmp_storage) by done. apply length_seqZ. }
  simpl.
  destruct (proj2 (at_index_is_Some coeffs upper)) as [c Hc]; [lia |].
  unfold Vector.get. rewrite Hc. simpl. apply Hrest.
Qed.

(** X22. [TranslateToLocal] into another object is defined when the two
    centers have the coordinates of the dimension of the table, the count
    of the order of the receiver fits the list of upper mappings and the
    coefficient buffers of both objects, the multi-indices below that count
    have an entry for each dimension, and no upper mapping is negative. *)
Theorem TranslateToLocal_defined (this to : nat) σ me dest :
  this ≠ to → σ !! this = Some me → σ !! to = Some dest →
  (∀ d, 0 ≤ d < get_dimension (sea_ me) →
     is_Some (Vector.get (center_ dest) d)
     ∧ is_Some (Vector.get (center_ me) d)) →
  get_total_num_coeffs (sea_ me) (order_ me)
  ≤ Z.of_nat (length (get_upper_mapping_index (sea_ me))) →
  get_total_num_coeffs (sea_ me) (order_ me)
  ≤ Z.of_nat (length (coeffs_ me)) →
  get_total_num_coeffs (sea_ me) (order_ me)
  ≤ Z.of_nat (length (coeffs_ dest)) →
  (∀ j, 0 ≤ j < get_total_num_coeffs (sea_ me) (order_ me) →
     get_dimension (sea_ me)
     ≤ Z.of_nat (length (get_multiindex (sea_ me) j))) →
  (∀ j upper_mappings u,
     at_index (get_upper_mapping_index (sea_ me)) j = Some upper_mappings →
     u ∈ upper_mappings → 0 ≤ u) →
  is_Some (TranslateToLocal this to σ).
Proof.
  intros Hne Hme Hdest Hcenters Hmappings Hsource Hbuffer Hindices Hupper.
  unfold TranslateToLocal. rewrite Hme, Hdest. simpl.
  destruct (scaled_difference_is_Some (Vector.get (center_ dest))
              (Vector.get (center_ me)) (get_dimension (sea_ me))
              (BandwidthFactor (bandwidth_sq me)) Hcenters)
    as [center_diff Hdiff].
  rewrite Hdiff. simpl.
  apply scaled_difference_length in Hdiff.
  set (dest1 := if get_order dest <? order_ me
                then set_order (order_ me) dest else dest).
  assert (Hcoeffs : coeffs_ dest1 = coeffs_ dest)
    by (unfold dest1; by destruct (_ <? _)).
  assert (Hσ1 : (if get_order dest <? order_ me
                 then <[to := set_order (order_ me) dest]> σ else σ)
                = <[to := dest1]> σ).
  { unfold dest1. destruct (_ <? _); [done |].
    symmetry. by apply list_insert_id. }
  rewrite Hσ1.
  rewrite (translate_index_loop _ _ _ _ _ Hne _ me dest1).
  2:{ by rewrite list_lookup_insert_ne. }
  2:{ apply list_lookup_insert_eq. by eapply lookup_lt_Some. }
  rewrite Hcoeffs.
  match goal with
  | |- is_Some (for_loop (add_terms ?f) ?range ?v ≫= _) =>
      destruct (add_terms_loop_is_Some f range v) as (v' & -> & _);
      [| by eexists]
  end.
  intros j Hj. apply elem_of_seqZ in Hj. split; [| lia].
  destruct (proj2 (at_index_is_Some (get_upper_mapping_index (sea_ me)) j))
    as [upper_mappings Hj_mappings]; [lia |].
  rewrite Hj_mappings. simpl.
  destruct (upper_sums_defined (sea_ me)
              (get_total_num_coeffs (sea_ me) (order_ me)) center_diff
              (coeffs_ me) j upper_mappings) with (acc := (0%R, 0%R))
    as [sums ->]; [done | apply Hindices; lia | | by eexists].
  intros u Hu Hlt. pose proof (Hupper j upper_mappings u Hj_mappings Hu).
  split; [lia |]. apply Hindices. lia.
Qed.

End LocalToLocalDefined.

(** ** The further properties at explicit inputs *)

Section FurtherRuns.

Import Gaussian.

Ltac decide_sign :=
  repeat match goal with
         | |- context [Rgt_dec ?a ?b] =>
             destruct (Rgt_dec a b); [try (exfalso; lra) | try (exfalso; lra)]
         end.

Ltac centered :=
  replace ((0 - 0) / sqrt (2 * 1))%R with 0%R by (unfold Rdiv; lra);
  unfold far_field_sums, far_field_term, far_field_products,
    add_multiindices, add_point_terms; simpl;
  unfold partial_derivative, derivative_map, hermite, Matrix.get; simpl;
  replace (- 0 * 0)%R with 0%R by lra; rewrite ?exp_0.

Lemma run_evaluate (c0 c1 c2 : R) :
  EvaluateField None (-1) (Some [3%R]) (expansion 0 [c0; c1; c2])
  = Some c0.
Proof.
  unfold EvaluateField, scaled_difference. simpl. f_equal. lra.
Qed.

Lemma run_zero_source :
  TranslateFromFarField zero_source (expansion 2 [1; 0; 0]%R)
  = Some (expansion 2 [1; 0; 0]%R).
Proof.
  unfold TranslateFromFarField, scaled_difference. simpl. centered.
  unfold split_add. decide_sign. simpl.
  unfold expansion, set_coeffs. simpl. repeat f_equal. lra.
Qed.

Lemma run_sums :
  far_field_sums table (ComputeDirectionalDerivatives [0%R] 1 5)
    [1; 0; 0]%R 1 0
  = Some (1%R, 0%R).
Proof.
  unfold far_field_sums, far_field_term, add_multiindices. simpl.
  unfold partial_derivative, derivative_map, hermite, Matrix.get. simpl.
  replace (- 0 * 0)%R with 0%R by lra. rewrite exp_0.
  unfold split_add. decide_sign. simpl. f_equal. f_equal; lra.
Qed.

Lemma run_zero_receiver :
  TranslateToLocal 1 0 [expansion 0 [5; 0; 0]%R; expansion 1 [0; 0; 0]%R]
  = Some [expansion 1 [5; 0; 0]%R; expansion 1 [0; 0; 0]%R].
Proof.
  unfold TranslateToLocal, scaled_difference. simpl.
  unfold translate_index. simpl.
  unfold power_product. simpl. unfold split_add. decide_sign. simpl.
  unfold expansion, set_coeffs, set_order. simpl.
  repeat f_equal; lra.
Qed.

Lemma run_onto_itself :
  TranslateToLocal 1 1 two_expansions
  = Some [expansion 0 [0; 0; 0]%R; expansion 1 [2; 4; 0]%R].
Proof.
  unfold TranslateToLocal, scaled_difference. simpl.
  unfold translate_index. simpl.
  unfold power_product. simpl. unfold split_add. decide_sign. simpl.
  unfold expansion, set_coeffs, set_order. simpl.
  replace ((0 - 0) / sqrt (2 * (1 * 1)))%R with 0%R by (unfold Rdiv; lra).
  repeat f_equal; lra.
Qed.

Lemma table_upper_mappings j (upper_mappings : list Z) u :
  at_index (get_upper_mapping_index table) j = Some upper_mappings →
  u ∈ upper_mappings → 0 ≤ j ≤ u.
Proof.
  intros Hj Hu. apply at_index_Some in Hj as [Hj0 Hj]. simpl in Hj.
  destruct (Z.to_nat j) as [|[|[|n]]] eqn:Hn; simpl in Hj;
    [| | | done]; injection Hj as <-;
    repeat (apply elem_of_cons in Hu as [-> | Hu]; [lia |]);
    by apply elem_of_nil in Hu.
Qed.

Lemma table_factorials n :
  ¬ (factorial table n < 0)%R → (0 < factorial table n)%R.
Proof.
  simpl. destruct (n =? 0); [lra |]. destruct (n =? 1); [lra |].
  destruct (n =? 2); lra.
Qed.

End FurtherRuns.

Section FurtherWitnesses.

Import Gaussian.

Local Abbreviation first_order := (expansion 1 [1; 2; 0]%R).
Local Abbreviation accumulated := (expansion 2 [2; 2; -1]%R).
Local Abbreviation blank := (expansion 0 [0; 0; 0]%R).

Lemma zeros_read_zero k c : Vector.get [0; 0; 0]%R k = Some c → c = 0%R.
Proof.
  intros Hc. apply at_index_Some in Hc as [_ Hc].
  destruct (Z.to_nat k) as [|[|[|n]]]; simpl in Hc;
    first [by injection Hc as <- | discriminate Hc].
Qed.

Lemma AccumulateCoeffs_sum_witness :
  ∃ terms,
    accumulated_terms first_order [[0%R]] [1%R] 0 1 2 2 = Some terms
    ∧ Vector.get (coeffs_ accumulated) 2 = Some (0 + Rsum terms)%R.
Proof.
  apply (proj1 (AccumulateCoeffs_sum [[0%R]] [1%R] 0 1 2 first_order
                  accumulated run_accumulate) 2 0%R).
  - simpl. lia.
  - reflexivity.
Defined.

Lemma AccumulateCoeffs_frame_witness :
  kernel_ accumulated = kernel_ first_order
  ∧ get_center accumulated = get_center first_order
  ∧ sea_ accumulated = sea_ first_order
  ∧ length (get_coeffs accumulated) = length (get_coeffs first_order)
  ∧ get_order accumulated = Z.max (get_order first_order) 2.
Proof.
  apply (AccumulateCoeffs_frame [[0%R]] [1%R] 0 1 2 first_order accumulated).
  exact run_accumulate.
Defined.


Lemma AccumulateCoeffs_split_witness :
  AccumulateCoeffs [[1%R]; [2%R]] [10; 20]%R 0 1 2 blank
    ≫= AccumulateCoeffs [[1%R]; [2%R]] [10; 20]%R 1 2 2
  = AccumulateCoeffs [[1%R]; [2%R]] [10; 20]%R 0 2 2 blank.
Proof.
  apply (AccumulateCoeffs_split [[1%R]; [2%R]] [10; 20]%R 0 1 2 2 blank).
  lia.
Defined.


Lemma AccumulateCoeffs_beyond_buffer_witness :
  AccumulateCoeffs [[0%R]] [1%R] 0 1 2 (expansion 0 [1%R]) = None.
Proof.
  apply (AccumulateCoeffs_beyond_buffer [[0%R]] [1%R] 0 1 2
           (expansion 0 [1%R])).
  - lia.
  - simpl. lia.
Defined.

Lemma EvaluateField_superposition_witness :
  EvaluateField None (-1) (Some [3%R]) (set_coeffs [12; 0; 0]%R blank)
  = Some (5 + 7)%R.
Proof.
  apply (EvaluateField_superposition None (-1) (Some [3%R]) blank
           [5; 0; 0]%R [7; 0; 0]%R [12; 0; 0]%R 5%R 7%R).
  - simpl. intros i a b Hi. assert (i = 0) as -> by lia.
    intros [= <-] [= <-]. unfold Vector.get, at_index. simpl.
    f_equal. lra.
  - exact (run_evaluate 5 0 0).
  - exact (run_evaluate 7 0 0).
Defined.

Lemma EvaluateField_reads_current_order_witness :
  EvaluateField None (-1) (Some [3%R]) (set_coeffs [5; 1; 1]%R blank)
  = EvaluateField None (-1) (Some [3%R]) (set_coeffs [5; 2; 2]%R blank).
Proof.
  apply (EvaluateField_reads_current_order None (-1) (Some [3%R]) blank
           [5; 1; 1]%R [5; 2; 2]%R).
  simpl. intros i Hi. by assert (i = 0) as -> by lia.
Defined.

Lemma EvaluateField_zero_witness :
  EvaluateField None (-1) (Some [3%R]) blank = Some 0%R ∧ 0%R = 0%R.
Proof.
  split; [exact (run_evaluate 0 0 0) |].
  apply (proj1 (EvaluateField_zero None (-1) (Some [3%R])) blank 0%R).
  - intros i c _. apply zeros_read_zero.
  - exact (run_evaluate 0 0 0).
Defined.


Lemma EvaluateField_line_witness :
  EvaluateField None (-1) (Some [3%R]) (expansion 2 [1; 2; 3]%R)
  = Some (polynomial (coeffs_ (expansion 2 [1; 2; 3]%R))
            ((3 - 0)
             / BandwidthFactor (bandwidth_sq (expansion 2 [1; 2; 3]%R)))
            (order_ (expansion 2 [1; 2; 3]%R) + 1)).
Proof.
  apply (EvaluateField_line None (-1) (Some [3%R])
           (expansion 2 [1; 2; 3]%R) 3%R 0%R).
  - reflexivity.
  - simpl. lia.
  - reflexivity.
  - simpl. lia.
  - reflexivity.
  - reflexivity.
Defined.

Lemma OrderForEvaluating_range_witness :
  1 = -1 ∨ 0 ≤ 1 ≤ get_max_order (sea_ blank).
Proof.
  apply (OrderForEvaluating_range unit_region 0 (3 / 10) blank 1
           (Some (1 / 4)%R)).
  exact example_order_1.
Defined.

Lemma OrderForEvaluating_distance_monotone_witness :
  ∃ p2 stored2,
    OrderForEvaluating unit_region 1 (3 / 10) blank = Some (p2, stored2)
    ∧ p2 ≠ -1 ∧ p2 ≤ 1.
Proof.
  apply (OrderForEvaluating_distance_monotone blank unit_region 0 1
           (3 / 10) 1 (Some (1 / 4)%R)).
  - unfold bandwidth_sq. simpl. lra.
  - exact table_factorials.
  - simpl. intros p Hp. lia.
  - lra.
  - exact example_order_1.
  - lia.
Defined.

Lemma OrderForEvaluating_width_monotone_witness :
  ∃ p2 stored2,
    OrderForEvaluating half_region 0 (3 / 10) blank = Some (p2, stored2)
    ∧ p2 ≠ -1 ∧ p2 ≤ 1.
Proof.
  apply (OrderForEvaluating_width_monotone blank unit_region half_region 0
           (3 / 10) 1 (Some (1 / 4)%R)).
  - unfold bandwidth_sq. simpl. lra.
  - exact table_factorials.
  - simpl. intros p Hp. lia.
  - reflexivity.
  - unfold widest_width, width. simpl. rewrite !Rmax_right by lra. lra.
  - exact example_order_1.
  - lia.
Defined.

Lemma TranslateFromFarField_keeps_witness :
  kernel_ (expansion 2 [1; 0; 0]%R) = kernel_ (expansion 2 [0; 0; 0]%R)
  ∧ get_center (expansion 2 [1; 0; 0]%R)
    = get_center (expansion 2 [0; 0; 0]%R)
  ∧ sea_ (expansion 2 [1; 0; 0]%R) = sea_ (expansion 2 [0; 0; 0]%R)
  ∧ length (get_coeffs (expansion 2 [1; 0; 0]%R))
    = length (get_coeffs (expansion 2 [0; 0; 0]%R)).
Proof.
  apply (TranslateFromFarField_keeps far_source (expansion 2 [0; 0; 0]%R)
           (expansion 2 [1; 0; 0]%R)).
  exact run_far_field.
Defined.

Lemma TranslateFromFarField_zero_source_witness :
  TranslateFromFarField zero_source (expansion 2 [1; 0; 0]%R)
  = Some (expansion 2 [1; 0; 0]%R)
  ∧ get_coeffs (expansion 2 [1; 0; 0]%R)
    = get_coeffs (expansion 2 [1; 0; 0]%R).
Proof.
  split; [exact run_zero_source |].
  apply (TranslateFromFarField_zero_source zero_source
           (expansion 2 [1; 0; 0]%R) (expansion 2 [1; 0; 0]%R)).
  - exact zeros_read_zero.
  - exact run_zero_source.
Defined.

Lemma far_field_sums_split_witness :
  ∃ products,
    far_field_products table (ComputeDirectionalDerivatives [0%R] 1 5)
      [1; 0; 0]%R 1 0 = Some products
    ∧ (1%R, 0%R).1 = positive_sum products
    ∧ (1%R, 0%R).2 = nonpositive_sum products
    ∧ (0 <= (1%R, 0%R).1)%R ∧ ((1%R, 0%R).2 <= 0)%R.
Proof.
  apply (far_field_sums_split table
           (ComputeDirectionalDerivatives [0%R] 1 5) [1; 0; 0]%R 1 0
           (1%R, 0%R)).
  exact run_sums.
Defined.


Lemma TranslateToLocal_frame_witness :
  length [first_order; first_order] = length two_expansions
  ∧ (∀ i : nat, i ≠ 0%nat →
       [first_order; first_order] !! i = two_expansions !! i)
  ∧ ∃ dest',
      [first_order; first_order] !! 0%nat = Some dest'
      ∧ kernel_ dest' = kernel_ blank
      ∧ get_center dest' = get_center blank
      ∧ sea_ dest' = sea_ blank
      ∧ length (get_coeffs dest') = length (get_coeffs blank)
      ∧ get_order dest' = Z.max (get_order blank) (get_order first_order).
Proof.
  apply (TranslateToLocal_frame 1 0 two_expansions
           [first_order; first_order] first_order blank).
  - exact run_local_to_local.
  - reflexivity.
  - reflexivity.
Defined.

Lemma TranslateToLocal_zero_receiver_witness :
  ∃ dest',
    [expansion 1 [5; 0; 0]%R; expansion 1 [0; 0; 0]%R] !! 0%nat = Some dest'
    ∧ get_coeffs dest' = get_coeffs (expansion 0 [5; 0; 0]%R).
Proof.
  apply (TranslateToLocal_zero_receiver 1 0
           [expansion 0 [5; 0; 0]%R; expansion 1 [0; 0; 0]%R]
           [expansion 1 [5; 0; 0]%R; expansion 1 [0; 0; 0]%R]
           (expansion 1 [0; 0; 0]%R) (expansion 0 [5; 0; 0]%R)).
  - exact zeros_read_zero.
  - exact run_zero_receiver.
  - lia.
  - reflexivity.
  - reflexivity.
Defined.

Lemma TranslateToLocal_onto_itself_witness :
  ∃ me',
    [blank; expansion 1 [2; 4; 0]%R] !! 1%nat = Some me'
    ∧ get_order me' = get_order first_order
    ∧ ∀ j, 0 ≤ j < get_total_num_coeffs (sea_ first_order)
                     (order_ first_order) →
        ∃ c x,
          Vector.get (coeffs_ first_order) j = Some c
          ∧ local_sum first_order (center_ first_order) j = Some x
          ∧ Vector.get (coeffs_ me') j = Some (c + x)%R.
Proof.
  apply (TranslateToLocal_onto_itself 1 two_expansions
           [blank; expansion 1 [2; 4; 0]%R] first_order).
  - intros j upper_mappings u Hj Hu.
    by destruct (table_upper_mappings j upper_mappings u Hj Hu).
  - exact run_onto_itself.
  - reflexivity.
Defined.

Lemma TranslateToLocal_defined_witness :
  is_Some (TranslateToLocal 1 0 two_expansions).
Proof.
  apply (TranslateToLocal_defined 1 0 two_expansions first_order blank).
  - lia.
  - reflexivity.
  - reflexivity.
  - simpl. intros d Hd. assert (d = 0) as -> by lia. split; by eexists.
  - simpl. lia.
  - simpl. lia.
  - simpl. lia.
  - simpl. intros j Hj. lia.
  - intros j upper_mappings u Hj Hu.
    pose proof (table_upper_mappings j upper_mappings u Hj Hu). lia.
Defined.

End FurtherWitnesses.
